(** * CSV-to-JSON parser: a shallow embedding of [src/utils/csvParser.js]

    The development follows the class [CSVParser]:

    - [parseLine]            the line splitter;
    - [createNestedObject]   the path-to-object builder;
    - [mergeDeep]            the deep merger;
    - [buildRecord]          the per-row loop shared, verbatim, by [parse]
                             and [parseStream];
    - [parse]                the whole-file loader;
    - [Stream]               the event handlers that [parseStream] installs
                             on the readline interface, as a transition
                             system driven by the events of the runtime;

    and, of [services/userService.js], [insertUserBatch] and the counters
    of [calculateAgeDistribution] (module [User]).

    Modelling conventions.

    - A JavaScript string is a [string]; a character is one code unit in
      the range 0..255.
    - A JavaScript number is a double, given by its exact rational value
      ([jsnum]); [Number] rounds the value of a literal to the nearest
      double.
    - An object is the ordered list of its own enumerable properties; an
      array is such an object flagged as an array.  The prototypes are
      not part of the embedding: it agrees with the code on the keys that
      name no built-in property of a prototype and are no array index
      ([plain_key]), and the statements about what is stored under a key
      are made for these keys.  The [length] of arrays is outside the
      model.
    - A class body is strict-mode code: writing a property of a primitive
      throws a [TypeError].
    - The limits of the runtime (stack depth, memory, string length) are
      outside the model. *)

From Stdlib Require Import ZArith QArith Qpower Ascii String List Lia Bool.
From stdpp Require Import base list strings pretty gmap.

Local Open Scope string_scope.
Local Open Scope list_scope.

(** ** Strings *)

Module Str.

(** The white space that [String.prototype.trim] removes, among the code
    units 0..255: TAB, LF, VT, FF, CR, SP and NBSP. *)
Definition is_ws (c : ascii) : bool :=
  let n := nat_of_ascii c in
  (n =? 9)%nat || (n =? 10)%nat || (n =? 11)%nat || (n =? 12)%nat
  || (n =? 13)%nat || (n =? 32)%nat || (n =? 160)%nat.

Fixpoint trimStart (s : string) : string :=
  match s with
  | EmptyString => EmptyString
  | String c r => if is_ws c then trimStart r else s
  end.

Fixpoint trimEnd (s : string) : string :=
  match s with
  | EmptyString => EmptyString
  | String c r =>
      match trimEnd r with
      | EmptyString => if is_ws c then EmptyString else String c EmptyString
      | r' => String c r'
      end
  end.

(** [s.trim()] *)
Definition trim (s : string) : string := trimEnd (trimStart s).


(** [s += c] *)
Definition push_char (s : string) (c : ascii) : string :=
  s +:+ String c EmptyString.

(** Does the character [c] occur in [s]? *)
Fixpoint occurs (c : ascii) (s : string) : bool :=
  match s with
  | EmptyString => false
  | String d r => Ascii.eqb c d || occurs c r
  end.

(** [s.split(sep)] for a one-character separator: the pieces between the
    occurrences of [sep]; an empty string gives one empty piece. *)
Fixpoint split_acc (sep : ascii) (cur : string) (s : string) : list string :=
  match s with
  | EmptyString => [cur]
  | String c r =>
      if Ascii.eqb c sep then cur :: split_acc sep EmptyString r
      else split_acc sep (push_char cur c) r
  end.

Definition split (sep : ascii) (s : string) : list string :=
  split_acc sep EmptyString s.

End Str.

(** ** The line splitter: [parseLine] (lines 17-38) *)

Definition quote : ascii := Ascii false true false false false true false false. (* code 34 *)
Definition comma : ascii := ","%char.

(** The three mutable locals of [parseLine]. *)
Record scan := {
  values : list string;
  current : string;
  insideQuotes : bool
}.

(** The body of the [for] loop, for the character [char]. *)
Definition scan_step (st : scan) (char : ascii) : scan :=
  if Ascii.eqb char quote then
    {| values := values st; current := current st;
       insideQuotes := negb (insideQuotes st) |}
  else if Ascii.eqb char comma && negb (insideQuotes st) then
    {| values := values st ++ [Str.trim (current st)];
       current := EmptyString;
       insideQuotes := insideQuotes st |}
  else
    {| values := values st; current := Str.push_char (current st) char;
       insideQuotes := insideQuotes st |}.

Definition scan_init : scan :=
  {| values := []; current := EmptyString; insideQuotes := false |}.

(** The loop runs over [line[0]], ..., [line[line.length - 1]]. *)
Fixpoint scan_loop (st : scan) (line : string) : scan :=
  match line with
  | EmptyString => st
  | String char rest => scan_loop (scan_step st char) rest
  end.

Definition parseLine (line : string) : list string :=
  let st := scan_loop scan_init line in
  values st ++ [Str.trim (current st)].

(** The splitter as the specification words it: a left-to-right scan with
    an inside-quotes flag [q] and an accumulator [acc]; a quote toggles the
    flag and is dropped, a comma outside quotes ends the field, any other
    character is appended, and the accumulator is the last field. *)
Fixpoint split_fields (q : bool) (acc : string) (line : string) : list string :=
  match line with
  | EmptyString => [Str.trim acc]
  | String c rest =>
      if Ascii.eqb c quote then split_fields (negb q) acc rest
      else if q then split_fields q (Str.push_char acc c) rest
      else if Ascii.eqb c comma then Str.trim acc :: split_fields q EmptyString rest
      else split_fields q (Str.push_char acc c) rest
  end.

(** ** Numbers: [Number(string)] and [isNaN(string)] *)

Module Num.

(** A number value: [Finite q] is the double whose exact value is the
    rational [q] (kept in lowest terms); [Finite 0] is +0. *)
Inductive jsnum :=
| NaN
| Finite (q : Q)
| NegZero
| PosInf
| NegInf.

Definition code (c : ascii) : Z := Z.of_nat (nat_of_ascii c).

(** The value of [c] as a digit of base up to 16, if it is one. *)
Definition digit_of (c : ascii) : option Z :=
  let n := code c in
  if (48 <=? n)%Z && (n <=? 57)%Z then Some (n - 48)%Z
  else if (97 <=? n)%Z && (n <=? 102)%Z then Some (n - 87)%Z
  else if (65 <=? n)%Z && (n <=? 70)%Z then Some (n - 55)%Z
  else None.

Definition digit_in (base : Z) (c : ascii) : option Z :=
  match digit_of c with
  | Some d => if (d <? base)%Z then Some d else None
  | None => None
  end.

(** The longest prefix of [s] made of digits of [base]: its value on top
    of [acc], its length on top of [n], and the rest of [s]. *)
Fixpoint digits (base : Z) (s : string) (acc : Z) (n : nat) : Z * nat * string :=
  match s with
  | EmptyString => (acc, n, s)
  | String c r =>
      match digit_in base c with
      | Some d => digits base r (base * acc + d)%Z (S n)
      | None => (acc, n, s)
      end
  end.

(** An optional sign in front: is it a minus, and what follows it. *)
Definition strip_sign (s : string) : bool * string :=
  match s with
  | EmptyString => (false, s)
  | String c r =>
      if Ascii.eqb c "+" then (false, r)
      else if Ascii.eqb c "-" then (true, r)
      else (false, s)
  end.

(** ExponentPart (optional), followed by the end of the literal. *)
Definition exponent_part (s : string) : option Z :=
  match s with
  | EmptyString => Some 0%Z
  | String c r =>
      if Ascii.eqb c "e" || Ascii.eqb c "E" then
        let '(neg, r') := strip_sign r in
        let '(v, n, rest) := digits 10 r' 0 0 in
        if negb (n =? 0)%nat && String.eqb rest EmptyString
        then Some (if neg then - v else v)%Z else None
      else None
  end.

(** StrUnsignedDecimalLiteral other than Infinity, as mantissa and decimal
    exponent: [DecimalDigits . DecimalDigits? ExponentPart?],
    [. DecimalDigits ExponentPart?] or [DecimalDigits ExponentPart?]. *)
Definition unsigned_decimal (s : string) : option (Z * Z) :=
  let '(ip, ni, r1) := digits 10 s 0 0 in
  match r1 with
  | String "." r2 =>
      let '(m, nf, r3) := digits 10 r2 ip 0 in
      if (ni =? 0)%nat && (nf =? 0)%nat then None
      else match exponent_part r3 with
           | Some e => Some (m, (e - Z.of_nat nf)%Z)
           | None => None
           end
  | _ =>
      if (ni =? 0)%nat then None
      else match exponent_part r1 with
           | Some e => Some (ip, e)
           | None => None
           end
  end.

(** The mathematical value of the mantissa [m] with the decimal exponent
    [e]. *)
Definition decimal_value (m e : Z) : Q := Qred (inject_Z m * (10 # 1) ^ e).

(** [n / d] rounded to an integer, a tie going to the even neighbour. *)
Definition round_half_even (n d : Z) : Z :=
  let f := (n / d)%Z in
  match (2 * (n mod d) ?= d)%Z with
  | Lt => f
  | Gt => (f + 1)%Z
  | Eq => if Z.even f then f else (f + 1)%Z
  end.

(** The integer part of the binary logarithm of [n / d], for positive [n]
    and [d]. *)
Definition ilog2 (n d : Z) : Z :=
  let e := (Z.log2 n - Z.log2 d)%Z in
  if (if (0 <=? e)%Z then (d * 2 ^ e <=? n)%Z else (d <=? n * 2 ^ (- e))%Z)
  then e else (e - 1)%Z.

(** The Number value of a mathematical value: the double nearest to the
    magnitude [q], given with its sign; a tie goes to the double with an
    even significand, a magnitude that rounds to 2^1024 is an infinity and
    one that rounds to nothing is a zero.  A double is [m * 2^p] with a
    significand [m] below 2^53 and [p] from -1074 on. *)
Definition to_double (neg : bool) (q : Q) : jsnum :=
  let n := Qnum q in
  let d := Zpos (Qden q) in
  if (n <=? 0)%Z then (if neg then NegZero else Finite 0)
  else
    let p := (Z.max (ilog2 n d) (-1022) - 52)%Z in
    let m := if (0 <=? p)%Z then round_half_even n (d * 2 ^ p)
             else round_half_even (n * 2 ^ (- p)) d in
    if (m =? 0)%Z then (if neg then NegZero else Finite 0)
    else if (0 <=? p)%Z && (2 ^ 1024 <=? m * 2 ^ p)%Z
    then (if neg then NegInf else PosInf)
    else Finite (Qred (inject_Z (if neg then - m else m) * (2 # 1) ^ p)).

(** StrDecimalLiteral: an optional sign, then Infinity or an unsigned
    decimal literal. *)
Definition str_decimal (s : string) : jsnum :=
  let '(neg, body) := strip_sign s in
  if String.eqb body "Infinity" then (if neg then NegInf else PosInf)
  else match unsigned_decimal body with
       | Some (m, e) => to_double neg (decimal_value m e)
       | None => NaN
       end.

(** NonDecimalIntegerLiteral: 0x, 0o or 0b (either case) and at least one
    digit of that base; it takes no sign. *)
Definition non_decimal (s : string) : option jsnum :=
  match s with
  | String "0" (String x r) =>
      let base :=
        if Ascii.eqb x "x" || Ascii.eqb x "X" then Some 16%Z
        else if Ascii.eqb x "o" || Ascii.eqb x "O" then Some 8%Z
        else if Ascii.eqb x "b" || Ascii.eqb x "B" then Some 2%Z
        else None in
      match base with
      | Some b =>
          let '(v, n, rest) := digits b r 0 0 in
          if negb (n =? 0)%nat && String.eqb rest EmptyString
          then Some (to_double false (inject_Z v)) else None
      | None => None
      end
  | _ => None
  end.

(** [Number(s)] for a string: white space around the literal is dropped,
    the empty literal is 0, anything outside the grammar is NaN. *)
Definition Number (s : string) : jsnum :=
  let t := Str.trim s in
  if String.eqb t EmptyString then Finite 0
  else match non_decimal t with
       | Some n => n
       | None => str_decimal t
       end.

(** [isNaN(s)] converts its argument with [Number] first. *)
Definition isNaN (s : string) : bool :=
  match Number s with
  | NaN => true
  | _ => false
  end.

Definition is_zero_or_nan (n : jsnum) : bool :=
  match n with
  | NaN | NegZero => true
  | Finite q => (Qnum q =? 0)%Z
  | PosInf | NegInf => false
  end.

End Num.

(** ** Values and objects *)

#[local] Set Warnings "-register-all".

Inductive value :=
| VNull
| VBool (b : bool)
| VNum (n : Num.jsnum)
| VStr (s : string)
| VObj (isArray : bool) (props : list (string * value)).

Abbreviation props := (list (string * value)).

(** [{}] *)
Definition empty_object : value := VObj false [].

(** ToBoolean *)
Definition truthy (v : value) : bool :=
  match v with
  | VNull => false
  | VBool b => b
  | VNum n => negb (Num.is_zero_or_nan n)
  | VStr s => negb (String.eqb s EmptyString)
  | VObj _ _ => true
  end.

(** [v && typeof v === 'object' && !Array.isArray(v)] *)
Definition is_plain_object (v : value) : bool :=
  match v with
  | VObj false _ => true
  | _ => false
  end.

(** Own-property lookup and assignment on a property list: an assignment
    to an existing key keeps its place, a new key goes last (which is the
    order of [for-in] for the keys that are no array indices). *)
Fixpoint get {A} (ps : list (string * A)) (k : string) : option A :=
  match ps with
  | [] => None
  | (k', v) :: r => if String.eqb k' k then Some v else get r k
  end.

Fixpoint set {A} (ps : list (string * A)) (k : string) (v : A) : list (string * A) :=
  match ps with
  | [] => [(k, v)]
  | (k', v') :: r =>
      if String.eqb k' k then (k, v) :: r else (k', v') :: set r k v
  end.

(** Failures. *)
Inductive exn :=
| TypeError
| EmptyFile                 (* new Error('CSV file is empty') *)
| Raised (e : string).      (* whatever the consumer raised *)

Inductive result (A : Type) :=
| Ok (a : A)
| Throw (e : exn).
Arguments Ok {A} a.
Arguments Throw {A} e.

Definition bind {A B} (r : result A) (f : A -> result B) : result B :=
  match r with
  | Ok a => f a
  | Throw e => Throw e
  end.

Notation "'do' x <- r ; k" := (bind r (fun x => k))
  (at level 10, x name, r at level 100, k at level 200).

(** [t[k]] (undefined is [None]) and [t[k] = v], among the own
    properties: what the code does for a plain key [k] (see [plain_key]
    below).  A primitive has no property under such a key, and writing
    one throws. *)
Definition getProp (t : value) (k : string) : option value :=
  match t with
  | VObj _ ps => get ps k
  | _ => None
  end.

Definition setProp (t : value) (k : string) (v : value) : result value :=
  match t with
  | VObj a ps => Ok (VObj a (set ps k v))
  | _ => Throw TypeError
  end.

(** ** The path-to-object builder: [createNestedObject] (lines 44-59) *)

(** The chain built for the segments [k :: rest]: every segment but the
    last gets a fresh object, the last one gets [v].  This is the loop of
    lines 50-56 for segments that are plain keys: [current[k]] is then
    undefined in the fresh object and [current[k] || {}] is the new
    object. *)
Fixpoint nest (k : string) (rest : list string) (v : value) : value :=
  match rest with
  | [] => VObj false [(Str.trim k, v)]
  | k' :: rest' => VObj false [(Str.trim k, nest k' rest' v)]
  end.

Definition dot : ascii := "."%char.

Definition createNestedObject (key : string) (v : value) : value :=
  match Str.split dot key with
  | k :: rest => nest k rest v
  | [] => empty_object
  end.

(** ** The deep merger: [mergeDeep] (lines 64-76)

    [for-in] visits the own properties of the source (the prototypes hold
    nothing enumerable), and [target[key]] is read and written among the
    own properties, as the code does for plain keys. *)

(** The target after the object stored at [target[key]] was merged into
    in place. *)
Definition merged_at (t : value) (key : string) (sub : value) : value :=
  match t with
  | VObj a ps => VObj a (set ps key sub)
  | _ => t
  end.

(** [for (const key in "abc")] visits the indices; the values are
    one-character strings. *)
Fixpoint string_entries (i : nat) (s : string) : props :=
  match s with
  | EmptyString => []
  | String c r => (pretty i, VStr (String c EmptyString)) :: string_entries (S i) r
  end.

(** [target[key] = source[key]] for every entry. *)
Fixpoint assign_all (t : value) (l : props) : result value :=
  match l with
  | [] => Ok t
  | (key, sv) :: rest => do t' <- setProp t key sv ; assign_all t' rest
  end.

Fixpoint mergeDeep (target : value) (source : value) {struct source} : result value :=
  match source with
  | VObj _ ps =>
      (fix loop (t : value) (l : props) {struct l} : result value :=
         match l with
         | [] => Ok t
         | (key, sv) :: rest =>
             if is_plain_object sv then
               match getProp t key with
               | Some old =>
                   if truthy old then
                     do sub <- mergeDeep old sv ;
                     loop (merged_at t key sub) rest
                   else
                     do t1 <- setProp t key empty_object ;
                     do sub <- mergeDeep empty_object sv ;
                     loop (merged_at t1 key sub) rest
               | None =>
                   do t1 <- setProp t key empty_object ;
                   do sub <- mergeDeep empty_object sv ;
                   loop (merged_at t1 key sub) rest
               end
             else
               do t1 <- setProp t key sv ;
               loop t1 rest
         end) target ps
  | VStr s => assign_all target (string_entries 0 s)
  | _ => Ok target
  end.

(** The [for-in] loop of [mergeDeep] on its own, from the entry list [l]
    of the source on ([mergeDeep_object] below shows it is that loop). *)
Fixpoint mergeDeep_entries (t : value) (l : props) : result value :=
  match l with
  | [] => Ok t
  | (key, sv) :: rest =>
      if is_plain_object sv then
        match getProp t key with
        | Some old =>
            if truthy old then
              do sub <- mergeDeep old sv ;
              mergeDeep_entries (merged_at t key sub) rest
            else
              do t1 <- setProp t key empty_object ;
              do sub <- mergeDeep empty_object sv ;
              mergeDeep_entries (merged_at t1 key sub) rest
        | None =>
            do t1 <- setProp t key empty_object ;
            do sub <- mergeDeep empty_object sv ;
            mergeDeep_entries (merged_at t1 key sub) rest
        end
      else
        do t1 <- setProp t key sv ;
        mergeDeep_entries t1 rest
  end.

(** ** The row materializer (lines 118-132 and, verbatim, 207-221) *)

(** [if (!isNaN(value) && value !== '') value = Number(value)] *)
Definition coerce (v : string) : value :=
  if negb (Num.isNaN v) && negb (String.eqb v EmptyString)
  then VNum (Num.Number v) else VStr v.

(** The loop over [j]; [values[j]] beyond the end is undefined and its
    [trim] throws. *)
Fixpoint buildRecord_from (record : value) (headers vals : list string) : result value :=
  match headers with
  | [] => Ok record
  | h :: headers' =>
      match vals with
      | [] => Throw TypeError
      | v :: vals' =>
          let header := Str.trim h in
          let nestedObj := createNestedObject header (coerce (Str.trim v)) in
          do record' <- mergeDeep record nestedObj ;
          buildRecord_from record' headers' vals'
      end
  end.

Definition buildRecord (headers vals : list string) : result value :=
  buildRecord_from empty_object headers vals.

(** ** The console *)

Inductive logmsg :=
| WarnSkipping (line : nat)        (* warn: Skipping line n - column count mismatch *)
| ErrorParsingLine (line : nat)    (* error: Error parsing line n *)
| ErrorParsingFile                 (* error: Error parsing CSV file *)
| LogProcessedBatch (n : nat)      (* log: Processed batch: n records so far *)
| LogFinalBatch (n : nat)          (* log: Processed final batch: n total records *)
| LogParsed (n : nat).             (* log: Successfully parsed n records from CSV *)

(** ** The whole-file loader: [parse] (lines 184-233) *)

Definition newline : ascii := ascii_of_nat 10.

Definition non_blank (line : string) : bool :=
  negb (String.eqb (Str.trim line) EmptyString).

(** The loop over [i], from the row [lines[i]] on; it returns what it
    printed and either the records or the exception that left the loop. *)
Fixpoint parse_rows (headers : list string) (i : nat) (rows : list string)
    (records : list value) : list logmsg * result (list value) :=
  match rows with
  | [] => ([], Ok records)
  | line :: rows' =>
      let vals := parseLine line in
      if negb (length vals =? length headers)%nat then
        let '(out, r) := parse_rows headers (S i) rows' records in
        (WarnSkipping (i + 1) :: out, r)
      else
        match buildRecord headers vals with
        | Ok record => parse_rows headers (S i) rows' (records ++ [record])
        | Throw e => ([], Throw e)
        end
  end.

(** [parse] on the non-blank lines of the file. *)
Definition parse_lines (lines : list string) : list logmsg * result (list value) :=
  match lines with
  | [] => ([ErrorParsingFile], Throw EmptyFile)
  | header :: rows =>
      let '(out, r) := parse_rows (parseLine header) 1 rows [] in
      match r with
      | Ok records => (out ++ [LogParsed (length records)], Ok records)
      | Throw e => (out ++ [ErrorParsingFile], Throw e)
      end
  end.

(** [parse] from line 187 on, with the content of the file. *)
Definition parse (fileContent : string) : list logmsg * result (list value) :=
  parse_lines (List.filter non_blank (Str.split newline fileContent)).

(** [parse] as a whole: [read] is what [fs.readFileSync] (line 186) gives,
    the content of the file or the exception it throws, which the [catch]
    of line 229 logs and throws again. *)
Definition parse_file (read : result string) : list logmsg * result (list value) :=
  match read with
  | Ok fileContent => parse fileContent
  | Throw e => ([ErrorParsingFile], Throw e)
  end.

(** ** The streaming pipeline: [parseStream] (lines 82-178)

    [parseStream] installs three listeners on a readline interface [rl]
    and returns a promise.  The listeners share the variables [headers],
    [batch], [lineNumber] and [totalRecords].  The runtime decides which
    event comes next; the model is the reaction of the listeners:

    - a listener runs synchronously when its event is emitted; an [async]
      listener runs up to its first [await] and the emitter goes on, the
      rest of the listener runs when the awaited call settles;
    - [rl.pause()] stops the input stream; readline still emits the lines
      of the chunk it has already received (the Node.js documentation of
      [rl.pause()]: it "does not immediately pause other events (including
      'line') from being emitted"), so a ['line'] event may arrive while
      [paused] is set;
    - [rl.close()] emits ['close'] synchronously, once; readline closes
      itself when the input ends;
    - [batch] names an array; [onBatch(batch)] hands that array, not a
      copy, to the consumer, and [batch = []] makes [batch] name a new one.

    The consumer is any callback: when and how each of its calls settles
    is part of the schedule. *)

Module Stream.

(** Where a suspended listener resumes: after the [await] of line 142 or
    after the one of line 166. *)
Inductive kont := AwaitInLine | AwaitInClose.

Record state := {
  headers : option (list string);     (* null until line 105 *)
  arrays : list (list value);         (* every array [batch] has named *)
  batch : nat;                        (* the array [batch] names now *)
  lineNumber : nat;
  totalRecords : nat;
  paused : bool;                      (* rl.paused *)
  closed : bool;                      (* rl.closed *)
  promise : option (result nat);      (* how the returned promise settled *)
  pending : list kont;                (* consumer calls in flight *)
  calls : list (nat * list value);    (* every onBatch call: the array and
                                         its content at the call *)
  console : list logmsg
}.

Definition init : state :=
  {| headers := None; arrays := [[]]; batch := 0; lineNumber := 0;
     totalRecords := 0; paused := false; closed := false; promise := None;
     pending := []; calls := []; console := [] |}.

Definition set_headers (h : option (list string)) (s : state) : state :=
  {| headers := h; arrays := arrays s; batch := batch s;
     lineNumber := lineNumber s; totalRecords := totalRecords s;
     paused := paused s; closed := closed s; promise := promise s;
     pending := pending s; calls := calls s; console := console s |}.

Definition set_arrays (a : list (list value)) (b : nat) (s : state) : state :=
  {| headers := headers s; arrays := a; batch := b;
     lineNumber := lineNumber s; totalRecords := totalRecords s;
     paused := paused s; closed := closed s; promise := promise s;
     pending := pending s; calls := calls s; console := console s |}.

Definition set_lineNumber (n : nat) (s : state) : state :=
  {| headers := headers s; arrays := arrays s; batch := batch s;
     lineNumber := n; totalRecords := totalRecords s;
     paused := paused s; closed := closed s; promise := promise s;
     pending := pending s; calls := calls s; console := console s |}.

Definition set_totalRecords (n : nat) (s : state) : state :=
  {| headers := headers s; arrays := arrays s; batch := batch s;
     lineNumber := lineNumber s; totalRecords := n;
     paused := paused s; closed := closed s; promise := promise s;
     pending := pending s; calls := calls s; console := console s |}.

Definition set_paused (p : bool) (s : state) : state :=
  {| headers := headers s; arrays := arrays s; batch := batch s;
     lineNumber := lineNumber s; totalRecords := totalRecords s;
     paused := p; closed := closed s; promise := promise s;
     pending := pending s; calls := calls s; console := console s |}.

Definition set_closed (c : bool) (s : state) : state :=
  {| headers := headers s; arrays := arrays s; batch := batch s;
     lineNumber := lineNumber s; totalRecords := totalRecords s;
     paused := paused s; closed := c; promise := promise s;
     pending := pending s; calls := calls s; console := console s |}.

Definition set_promise (p : option (result nat)) (s : state) : state :=
  {| headers := headers s; arrays := arrays s; batch := batch s;
     lineNumber := lineNumber s; totalRecords := totalRecords s;
     paused := paused s; closed := closed s; promise := p;
     pending := pending s; calls := calls s; console := console s |}.

Definition set_pending (p : list kont) (s : state) : state :=
  {| headers := headers s; arrays := arrays s; batch := batch s;
     lineNumber := lineNumber s; totalRecords := totalRecords s;
     paused := paused s; closed := closed s; promise := promise s;
     pending := p; calls := calls s; console := console s |}.

Definition set_calls (c : list (nat * list value)) (s : state) : state :=
  {| headers := headers s; arrays := arrays s; batch := batch s;
     lineNumber := lineNumber s; totalRecords := totalRecords s;
     paused := paused s; closed := closed s; promise := promise s;
     pending := pending s; calls := c; console := console s |}.

Definition set_console (c : list logmsg) (s : state) : state :=
  {| headers := headers s; arrays := arrays s; batch := batch s;
     lineNumber := lineNumber s; totalRecords := totalRecords s;
     paused := paused s; closed := closed s; promise := promise s;
     pending := pending s; calls := calls s; console := c |}.

(** [console.log], [console.warn], [console.error] *)
Definition print (m : logmsg) (s : state) : state :=
  set_console (console s ++ [m]) s.

(** The content of the array [batch] names. *)
Definition batch_content (s : state) : list value :=
  nth (batch s) (arrays s) [].

(** [batch.push(record)] *)
Definition batch_push (record : value) (s : state) : state :=
  set_arrays (<[batch s := batch_content s ++ [record]]> (arrays s)) (batch s) s.

(** [batch = []] *)
Definition batch_renew (s : state) : state :=
  set_arrays (arrays s ++ [[]]) (length (arrays s)) s.

(** [resolve(v)] and [reject(e)]: a settled promise stays as it is. *)
Definition settle (r : result nat) (s : state) : state :=
  match promise s with
  | None => set_promise (Some r) s
  | Some _ => s
  end.

(** [await onBatch(batch)]: the consumer is called with the array and the
    listener is suspended at [k]. *)
Definition await_onBatch (k : kont) (s : state) : state :=
  set_pending (pending s ++ [k])
    (set_calls (calls s ++ [(batch s, batch_content s)]) s).

(** The ['close'] listener (lines 162-176), up to its [await]. *)
Definition on_close (s : state) : state :=
  if (0 <? length (batch_content s))%nat then await_onBatch AwaitInClose s
  else settle (Ok (totalRecords s)) (print (LogParsed (totalRecords s)) s).

Definition rl_pause (s : state) : state := set_paused true s.
Definition rl_resume (s : state) : state := set_paused false s.

Definition rl_close (s : state) : state :=
  if closed s then s else on_close (set_closed true (rl_pause s)).

(** The ['line'] listener (lines 95-156), up to its [await]. *)
Definition on_line (batchSize : Z) (line : string) (s0 : state) : state :=
  let s := set_lineNumber (S (lineNumber s0)) s0 in
  if negb (non_blank line) then s
  else if (lineNumber s =? 1)%nat then set_headers (Some (parseLine line)) s
  else
    let vals := parseLine line in
    match headers s with
    | None =>
        (* headers.length on null throws; caught at line 153 *)
        print (ErrorParsingLine (lineNumber s)) s
    | Some hs =>
        if negb (length vals =? length hs)%nat then
          print (WarnSkipping (lineNumber s)) s
        else
          match buildRecord hs vals with
          | Throw _ => print (ErrorParsingLine (lineNumber s)) s
          | Ok record =>
              let s1 := set_totalRecords (S (totalRecords s)) (batch_push record s) in
              if (batchSize <=? Z.of_nat (length (batch_content s1)))%Z
              then await_onBatch AwaitInLine (rl_pause s1)
              else s1
          end
    end.

(** The rest of a listener, once the consumer call it awaits has settled:
    fulfilled ([None]) or rejected with [e]. *)
Definition resume (k : kont) (outcome : option string) (s : state) : state :=
  match k, outcome with
  | AwaitInLine, None =>
      rl_resume (batch_renew (print (LogProcessedBatch (totalRecords s)) s))
  | AwaitInLine, Some e =>
      settle (Throw (Raised e)) (rl_close s)
  | AwaitInClose, None =>
      settle (Ok (totalRecords s))
        (print (LogParsed (totalRecords s))
           (print (LogFinalBatch (totalRecords s)) s))
  | AwaitInClose, Some e =>
      settle (Throw (Raised e)) s
  end.

(** What the runtime can do next. *)
Inductive event :=
| Line (line : string)                      (* rl emits 'line' *)
| Settled (i : nat) (outcome : option string)
                                            (* the i-th call in flight settles *)
| End                                       (* the input ended *)
| SourceError (e : string).                 (* rl emits 'error' *)

Definition step (batchSize : Z) (ev : event) (s : state) : state :=
  match ev with
  | Line line => on_line batchSize line s
  | Settled i outcome =>
      match pending s !! i with
      | Some k => resume k outcome (set_pending (delete i (pending s)) s)
      | None => s
      end
  | End => rl_close s
  | SourceError e => settle (Throw (Raised e)) s
  end.

Definition run_from (batchSize : Z) (evs : list event) (s : state) : state :=
  fold_left (fun s ev => step batchSize ev s) evs s.

Definition run (batchSize : Z) (evs : list event) : state :=
  run_from batchSize evs init.

(** Every record the pipeline holds or has handed over. *)
Definition records (s : state) : list value :=
  concat (arrays s) ++ concat (map snd (calls s)).

(** The sizes of the batches the consumer was called with. *)
Definition call_sizes (s : state) : list nat :=
  map (fun c => length (snd c)) (calls s).

(** The calls in flight that the ['line'] listener made. *)
Definition is_line_call (k : kont) : bool :=
  match k with
  | AwaitInLine => true
  | AwaitInClose => false
  end.

Definition line_calls (s : state) : nat :=
  length (List.filter is_line_call (pending s)).

Definition line_call_in_flight (s : state) : bool :=
  (0 <? line_calls s)%nat.

(** A source that stops at once on [rl.pause()]: along the schedule,
    every line arrives while the interface is neither paused nor closed. *)
Fixpoint prompt_source (batchSize : Z) (evs : list event) (s : state) : Prop :=
  match evs with
  | [] => True
  | ev :: evs' =>
      match ev with
      | Line _ => paused s = false /\ closed s = false
      | _ => True
      end /\ prompt_source batchSize evs' (step batchSize ev s)
  end.

(** A run without overlap: the lines one by one, every consumer call
    settling (as [outcome] says, by call number) before the next event,
    no line after the interface closed, then the end of the input. *)
Definition settle_next (batchSize : Z) (outcome : nat -> option string)
    (s : state) : state :=
  match pending s with
  | [] => s
  | _ :: _ => step batchSize (Settled 0 (outcome (length (calls s) - 1))) s
  end.

Definition settle_calls (batchSize : Z) (outcome : nat -> option string)
    (s : state) : state :=
  settle_next batchSize outcome (settle_next batchSize outcome s).

Fixpoint sequential_from (batchSize : Z) (outcome : nat -> option string)
    (lines : list string) (s : state) : state :=
  match lines with
  | [] => settle_calls batchSize outcome (step batchSize End s)
  | line :: lines' =>
      if closed s then s
      else sequential_from batchSize outcome lines'
             (settle_calls batchSize outcome (step batchSize (Line line) s))
  end.

Definition sequential (batchSize : Z) (outcome : nat -> option string)
    (lines : list string) : state :=
  sequential_from batchSize outcome lines init.

End Stream.

(** ** Notions the properties are stated with *)

(** The top-level keys of an object. *)
Definition keys (v : value) : gset string :=
  match v with
  | VObj _ ps => list_to_set (map fst ps)
  | _ => ∅
  end.

(** The merge rule as the specification words it, for a target record
    with properties [tp] and a source with the one entry [key]: recurse
    when both values at [key] are nested containers, assign the source
    value over the target key in every other case. *)
Definition merge_rule_as_specified (tp : props) (key : string) (sv : value) : Prop :=
  mergeDeep (VObj false tp) (VObj false [(key, sv)]) =
  match get tp key with
  | Some (VObj false c) =>
      if is_plain_object sv then
        do sub <- mergeDeep (VObj false c) sv ; Ok (VObj false (set tp key sub))
      else Ok (VObj false (set tp key sv))
  | _ => Ok (VObj false (set tp key sv))
  end.

(** The key-shape of a record: its nesting skeleton, leaves erased. *)
Inductive shape :=
| Leaf
| Node (children : list (string * shape)).

Fixpoint shape_of (v : value) : shape :=
  match v with
  | VObj false ps => Node (map (fun p => (fst p, shape_of (snd p))) ps)
  | _ => Leaf
  end.

(** An entry of a record and the entry of its shape. *)
Abbreviation shape_entry := (fun p : string * value => (fst p, shape_of (snd p))).

(** The skeleton a header list determines: its dotted paths laid down in
    header order, a later path replacing a leaf it runs through. *)
Fixpoint add_path (k : string) (rest : list string)
    (sk : list (string * shape)) : list (string * shape) :=
  match rest with
  | [] => set sk (Str.trim k) Leaf
  | k' :: rest' =>
      let sub :=
        match get sk (Str.trim k) with
        | Some (Node c) => c
        | _ => []
        end in
      set sk (Str.trim k) (Node (add_path k' rest' sub))
  end.

Definition add_header (sk : list (string * shape)) (h : string)
    : list (string * shape) :=
  match Str.split dot (Str.trim h) with
  | k :: rest => add_path k rest sk
  | [] => sk
  end.


(** What the materializer stores at a leaf. *)
Definition is_scalar (v : value) : bool :=
  match v with
  | VNum _ | VStr _ => true
  | _ => false
  end.

(** A record as the materializer builds it: plain objects down to scalar
    leaves. *)
Fixpoint record_like (v : value) : bool :=
  match v with
  | VObj false ps => forallb (fun p => is_scalar (snd p) || record_like (snd p)) ps
  | _ => false
  end.


(** The numeric literals the specification describes: an optional sign,
    digits, and optionally a decimal point with fractional digits. *)
Definition is_dec_digit (c : ascii) : bool :=
  let n := nat_of_ascii c in (48 <=? n)%nat && (n <=? 57)%nat.

Fixpoint all_digits (s : string) : bool :=
  match s with
  | EmptyString => true
  | String c r => is_dec_digit c && all_digits r
  end.













(** The states two runs can be in when they differ only by lines that
    left no record: everything agrees but the line counter and the
    console. *)
Definition same_progress (s1 s2 : Stream.state) : Prop :=
  Stream.headers s1 = Stream.headers s2 /\
  Stream.arrays s1 = Stream.arrays s2 /\
  Stream.batch s1 = Stream.batch s2 /\
  Stream.totalRecords s1 = Stream.totalRecords s2 /\
  Stream.paused s1 = Stream.paused s2 /\
  Stream.closed s1 = Stream.closed s2 /\
  Stream.promise s1 = Stream.promise s2 /\
  Stream.pending s1 = Stream.pending s2 /\
  Stream.calls s1 = Stream.calls s2.

(** A state with its line counter and console forgotten. *)
Definition forget (s : Stream.state) : Stream.state :=
  {| Stream.headers := Stream.headers s; Stream.arrays := Stream.arrays s;
     Stream.batch := Stream.batch s; Stream.lineNumber := 1;
     Stream.totalRecords := Stream.totalRecords s;
     Stream.paused := Stream.paused s; Stream.closed := Stream.closed s;
     Stream.promise := Stream.promise s; Stream.pending := Stream.pending s;
     Stream.calls := Stream.calls s; Stream.console := [] |}.


(** The invariant of the runs in which the source stops at once on
    [rl.pause()]: no array grows beyond [batchSize], and while the
    interface is neither paused nor closed the batch is not full and no
    call of the ['line'] listener is in flight. *)
Definition backpressure_inv (batchSize : Z) (s : Stream.state) : Prop :=
  (Stream.batch s < length (Stream.arrays s))%nat /\
  Forall (fun a => (Z.of_nat (length a) <= batchSize)%Z) (Stream.arrays s) /\
  Forall (fun c => (Z.of_nat (length (snd c)) <= batchSize)%Z) (Stream.calls s) /\
  (Stream.line_calls s <= 1)%nat /\
  (Stream.closed s = false -> Stream.paused s = false ->
   (Z.of_nat (length (Stream.batch_content s)) < batchSize)%Z /\
   Stream.line_calls s = 0%nat).

(** The invariant of all runs: [batch] names an array that exists and no
    consumer call was made with an empty batch. *)
Definition calls_inv (s : Stream.state) : Prop :=
  (Stream.batch s < length (Stream.arrays s))%nat /\
  Forall (fun c => snd c <> []) (Stream.calls s).

(** A data line that the materializer turns into the record [r] under
    the header list [hs]. *)
Definition valid_row (hs : list string) (line : string) (r : value) : Prop :=
  non_blank line = true /\
  length (parseLine line) = length hs /\
  buildRecord hs (parseLine line) = Ok r.

(** The state of the pipeline between two lines of a run without overlap:
    header read, interface flowing, promise pending, no call in flight. *)
Definition flowing (hs : list string) (n total : nat)
    (arrs : list (list value)) (b : nat) (calls : list (nat * list value))
    (console : list logmsg) : Stream.state :=
  {| Stream.headers := Some hs; Stream.arrays := arrs; Stream.batch := b;
     Stream.lineNumber := S n; Stream.totalRecords := total;
     Stream.paused := false; Stream.closed := false; Stream.promise := None;
     Stream.pending := []; Stream.calls := calls; Stream.console := console |}.

(** Batching as the specification describes it: the records in row
    order, cut whenever the batch in progress [cur] reaches [batchSize],
    and what is left at the end as a last, partial batch. *)
Fixpoint batches (batchSize : Z) (cur : list value) (recs : list value)
    : list (list value) :=
  match recs with
  | [] => match cur with [] => [] | _ :: _ => [cur] end
  | r :: recs' =>
      let cur' := cur ++ [r] in
      if (batchSize <=? Z.of_nat (length cur'))%Z
      then cur' :: batches batchSize [] recs'
      else batches batchSize cur' recs'
  end.

(** The record of the data line [v] under the one-column header [h]. *)
Abbreviation row v := (VObj false [("h", VNum (Num.Finite v))]).


(** ** Further notions: lines, paths and headers *)

(** Is the scan inside quotes after [s], having started with the flag [q]? *)
Fixpoint quote_parity (q : bool) (s : string) : bool :=
  match s with
  | EmptyString => q
  | String c r => quote_parity (if Ascii.eqb c quote then negb q else q) r
  end.

(** [v[k1][k2]...[kn]]; reading through a missing property or a
    primitive gives nothing. *)
Fixpoint get_path (v : value) (path : list string) : option value :=
  match path with
  | [] => Some v
  | k :: rest =>
      match getProp v k with
      | Some x => get_path x rest
      | None => None
      end
  end.

(** The two paths part ways: they agree up to some segment and then both
    go on, differently. *)
Fixpoint diverges (p q : list string) : bool :=
  match p, q with
  | a :: p', b :: q' => if String.eqb a b then diverges p' q' else true
  | _, _ => false
  end.

(** [p] is a proper initial part of [q]. *)
Fixpoint strict_prefix (p q : list string) : bool :=
  match p, q with
  | [], _ :: _ => true
  | a :: p', b :: q' => String.eqb a b && strict_prefix p' q'
  | _, _ => false
  end.

(** The chain for the segments [k :: rest] runs, before its last segment,
    into a truthy value of [t] that is not an object. *)
Fixpoint runs_into_scalar (t : value) (k : string) (rest : list string) : bool :=
  match rest with
  | [] => false
  | k' :: rest' =>
      match getProp t (Str.trim k) with
      | Some old =>
          truthy old &&
          match old with
          | VObj _ _ => runs_into_scalar old k' rest'
          | _ => true
          end
      | None => false
      end
  end.

(** The segments of a header as [createNestedObject] uses them. *)
Definition header_path (h : string) : list string :=
  map Str.trim (Str.split dot (Str.trim h)).

(** No header extends the path of a header before it. *)
Fixpoint well_nested_from (seen : list (list string)) (headers : list string) : bool :=
  match headers with
  | [] => true
  | h :: headers' =>
      forallb (fun q => negb (strict_prefix q (header_path h))) seen
      && well_nested_from (header_path h :: seen) headers'
  end.

Definition well_nested (headers : list string) : bool :=
  well_nested_from [] headers.

(** Every value of [t] that is not an object sits at a path of [paths],
    read below the path [pre]. *)
Definition leaves_in (pre : list string) (t : value) (paths : list (list string)) : Prop :=
  forall q x, get_path t q = Some x ->
    match x with VObj _ _ => False | _ => True end ->
    In (pre ++ q) paths.

(** ** Further notions: the keys on which an object is its own properties

    The embedding takes an object to be the list of its own properties.
    The code reads and writes [obj[key]] through the prototype chain: a key
    that names a built-in property of a prototype ([toString],
    [constructor], [__proto__], [length], ...) finds that property, with
    effects on objects shared by the whole program that the embedding does
    not have; and [for-in] visits the keys that are array indices first,
    in numeric order, where the embedding keeps the order of creation.  On
    every other key the two agree.  The statements about what is stored
    under a key are made for those other keys, the plain ones. *)

(** The names of the properties of [Object.prototype], [Array.prototype],
    [String.prototype], [Number.prototype] and [Boolean.prototype], as of
    ECMAScript 2024 with its Annex B. *)
Definition builtin_names : list string :=
  [ (* Object.prototype *)
    "constructor"; "hasOwnProperty"; "isPrototypeOf"; "propertyIsEnumerable";
    "toLocaleString"; "toString"; "valueOf"; "__proto__";
    "__defineGetter__"; "__defineSetter__"; "__lookupGetter__";
    "__lookupSetter__";
    (* Array.prototype *)
    "length"; "at"; "concat"; "copyWithin"; "entries"; "every"; "fill";
    "filter"; "find"; "findIndex"; "findLast"; "findLastIndex"; "flat";
    "flatMap"; "forEach"; "includes"; "indexOf"; "join"; "keys";
    "lastIndexOf"; "map"; "pop"; "push"; "reduce"; "reduceRight";
    "reverse"; "shift"; "slice"; "some"; "sort"; "splice"; "toReversed";
    "toSorted"; "toSpliced"; "unshift"; "values"; "with";
    (* String.prototype *)
    "charAt"; "charCodeAt"; "codePointAt"; "endsWith"; "isWellFormed";
    "localeCompare"; "match"; "matchAll"; "normalize"; "padEnd";
    "padStart"; "repeat"; "replace"; "replaceAll"; "search"; "split";
    "startsWith"; "substring"; "toLocaleLowerCase"; "toLocaleUpperCase";
    "toLowerCase"; "toUpperCase"; "toWellFormed"; "trim"; "trimEnd";
    "trimStart"; "substr"; "anchor"; "big"; "blink"; "bold"; "fixed";
    "fontcolor"; "fontsize"; "italics"; "link"; "small"; "strike"; "sub";
    "sup"; "trimLeft"; "trimRight";
    (* Number.prototype *)
    "toExponential"; "toFixed"; "toPrecision" ].

Definition inherited_name (k : string) : bool :=
  existsb (String.eqb k) builtin_names.

(** Decimal digits only, at least one: the array indices are among these
    keys. *)
Definition integer_like (k : string) : bool :=
  negb (String.eqb k EmptyString) && all_digits k.

Definition plain_key (k : string) : bool :=
  negb (inherited_name k) && negb (integer_like k).

(** Every segment of every header is a plain key. *)
Definition plain_headers (headers : list string) : bool :=
  forallb (fun h => forallb plain_key (header_path h)) headers.


(** Every key of the shape, at every depth, satisfies [P]. *)
Fixpoint keys_all (P : string -> bool) (sh : shape) : bool :=
  match sh with
  | Leaf => true
  | Node c => forallb (fun p => P (fst p) && keys_all P (snd p)) c
  end.

(** ** Further notions: the records of a file *)

(** The record of a line under the header list [hs], if it gives one: the
    line is not blank, has as many fields as there are headers, and
    materializes. *)
Definition row_record (hs : list string) (line : string) : list value :=
  if non_blank line && (length (parseLine line) =? length hs)%nat then
    match buildRecord hs (parseLine line) with
    | Ok r => [r]
    | Throw _ => []
    end
  else [].

(** The records of the lines after the header, in line order. *)
Definition rows_records (hs : list string) (lines : list string) : list value :=
  flat_map (row_record hs) lines.

Definition is_warning (m : logmsg) : bool :=
  match m with
  | WarnSkipping _ => true
  | _ => false
  end.

(** The lines a schedule delivers, in order. *)
Definition lines_of (evs : list Stream.event) : list string :=
  flat_map (fun ev => match ev with Stream.Line l => [l] | _ => [] end) evs.

(** The pipeline once the header is read: [batch] names the array made
    last. *)
Definition storing (hs : list string) (s : Stream.state) : Prop :=
  Stream.headers s = Some hs /\
  Stream.lineNumber s <> 0%nat /\
  S (Stream.batch s) = length (Stream.arrays s).

(** The calls of the ['close'] listener are made on a closed interface,
    and a total is reported on a closed interface only and counts no
    record that was not materialized. *)
Definition resolution_inv (s : Stream.state) : Prop :=
  (In Stream.AwaitInClose (Stream.pending s) -> Stream.closed s = true) /\
  (forall n, Stream.promise s = Some (Ok n) ->
             Stream.closed s = true /\ (n <= Stream.totalRecords s)%nat).

(** * The user service: [services/userService.js]

    The database client is outside the code: the model records the calls
    made on it, and an oracle says which queries fail.  [JSON.stringify]
    is left symbolic ([PJson v] stands for the string it returns for
    [v]).  The array of records is taken as it is when the call starts.
    The prototypes are as the runtime starts with them: they hold their
    built-in properties and nothing enumerable, so that [for-in] visits
    the own properties of a record, and the five keys the service reads
    ([name], [firstName], [lastName], [age], [address]) are found among
    the own properties or not at all. *)

Module User.

(** A parameter of the INSERT statement. *)
Inductive param :=
| PStr (s : string)
| PVal (v : value)
| PJson (v : value)
| PNull.

(** A call on the database client. *)
Inductive dbcall :=
| QBegin
| QInsert (ps : list param)
| QCommit
| QRollback
| Release.

(** [x || d], [x] possibly undefined. *)
Definition or_else (x : option value) (d : value) : value :=
  match x with
  | Some v => if truthy v then v else d
  | None => d
  end.

(** [record.name?.part] *)
Definition name_part (record : value) (part : string) : option value :=
  match getProp record "name" with
  | None | Some VNull => None
  | Some nm => getProp nm part
  end.

(** What [for (const key in record)] visits: the own properties, the
    prototypes holding nothing enumerable. *)
Definition entries (record : value) : props :=
  match record with
  | VObj _ ps => ps
  | VStr s => string_entries 0 s
  | _ => []
  end.

Definition reserved (key : string) : bool :=
  String.eqb key "name" || String.eqb key "age" || String.eqb key "address".

(** [additionalInfo[key] = v] on the object made at line 29: an own
    property, for every key but [__proto__]; under that key the object
    inherits the setter of its prototype, and the assignment leaves its
    own properties as they are. *)
Definition own_assign (o : props) (key : string) (v : value) : props :=
  if String.eqb key "__proto__" then o else set o key v.

(** The loop of lines 30-34. *)
Definition additionalInfo (record : value) : props :=
  fold_left (fun info kv => if reserved (fst kv) then info
                            else own_assign info (fst kv) (snd kv))
            (entries record) [].

(** The keys of a record that give no property of [additionalInfo]. *)
Definition left_out (key : string) : bool :=
  reserved key || String.eqb key "__proto__".

Section Service.

(** The decimal text of a number ([Number::toString]), left symbolic. *)
Variable number_to_string : Num.jsnum -> string.

(** The conversion of an array that has no own [toString], by
    [Array.prototype.toString]: it joins the conversions of the elements
    and throws when one of them does; left symbolic. *)
Variable array_to_string : props -> result string.

(** The conversion [ToString] that a template literal applies.  An
    object is converted by its [toString] method: the inherited one gives
    [[object Object]]; an own property [toString] hides it, and as a
    record holds no function the conversion then turns to [valueOf], which
    gives no primitive, and throws a TypeError. *)
Definition to_string (v : value) : result string :=
  match v with
  | VNull => Ok "null"
  | VBool b => Ok (if b then "true" else "false")
  | VNum n => Ok (number_to_string n)
  | VStr s => Ok s
  | VObj isArray ps =>
      match get ps "toString" with
      | Some _ => Throw TypeError
      | None => if isArray then array_to_string ps else Ok "[object Object]"
      end
  end.

(** Lines 20-22. *)
Definition fullName (record : value) : result string :=
  let firstName := or_else (name_part record "firstName") (VStr EmptyString) in
  let lastName := or_else (name_part record "lastName") (VStr EmptyString) in
  do first <- to_string firstName ;
  do last <- to_string lastName ;
  Ok (Str.trim (first +:+ " " +:+ last)).

(** The parameters of the INSERT of one record (lines 20-45); reading a
    property of null throws, and so does the template literal when a name
    part has no string. *)
Definition insert_params (record : value) : result (list param) :=
  match record with
  | VNull => Throw TypeError
  | _ =>
      do name <- fullName record ;
      let age := or_else (getProp record "age") (VNum (Num.Finite 0)) in
      let address := or_else (getProp record "address") VNull in
      let info := additionalInfo record in
      Ok [PStr name;
          PVal age;
          (if truthy address then PJson address else PNull);
          (match info with [] => PNull | _ :: _ => PJson (VObj false info) end)]
  end.

(** The loop of lines 18-47 from the query number [i] on: the calls made
    and the exception that left the loop, if any. *)
Fixpoint insert_all (fail : nat -> option string) (i : nat) (records : list value)
    : list dbcall * option exn :=
  match records with
  | [] => ([], None)
  | record :: rest =>
      match insert_params record with
      | Throw e => ([], Some e)
      | Ok ps =>
          match fail i with
          | Some e => ([QInsert ps], Some (Raised e))
          | None =>
              let '(calls, res) := insert_all fail (S i) rest in
              (QInsert ps :: calls, res)
          end
      end
  end.

(** The [try] block: BEGIN, the inserts, COMMIT. *)
Definition transaction (fail : nat -> option string) (records : list value)
    : list dbcall * option exn :=
  match fail 0%nat with
  | Some e => ([QBegin], Some (Raised e))
  | None =>
      let '(calls, res) := insert_all fail 1 records in
      match res with
      | Some e => (QBegin :: calls, Some e)
      | None =>
          (QBegin :: calls ++ [QCommit],
           match fail (S (length calls)) with
           | Some e => Some (Raised e)
           | None => None
           end)
      end
  end.

(** [insertUserBatch] (lines 11-60): [connect] is the failure of
    [pool.connect()], if it fails; [fail i] is the failure of the i-th
    query, if it fails.  The [catch] block rolls back and rethrows, unless
    the ROLLBACK fails itself; the [finally] block releases the client. *)
Definition insertUserBatch (connect : option string) (fail : nat -> option string)
    (records : list value) : list dbcall * result nat :=
  match connect with
  | Some e => ([], Throw (Raised e))
  | None =>
      match transaction fail records with
      | (calls, None) => (calls ++ [Release], Ok (length records))
      | (calls, Some e) =>
          (calls ++ [QRollback; Release],
           match fail (length calls) with
           | Some e' => Throw (Raised e')
           | None => Throw e
           end)
      end
  end.

End Service.

(** The four counters of [calculateAgeDistribution] (lines 88-105). *)
Record buckets := {
  lessThan20 : nat;
  between20And40 : nat;
  between40And60 : nat;
  above60 : nat
}.

(** The body of [users.forEach]. *)
Definition count_age (b : buckets) (age : Z) : buckets :=
  if (age <? 20)%Z then
    {| lessThan20 := S (lessThan20 b); between20And40 := between20And40 b;
       between40And60 := between40And60 b; above60 := above60 b |}
  else if (20 <=? age)%Z && (age <? 40)%Z then
    {| lessThan20 := lessThan20 b; between20And40 := S (between20And40 b);
       between40And60 := between40And60 b; above60 := above60 b |}
  else if (40 <=? age)%Z && (age <? 60)%Z then
    {| lessThan20 := lessThan20 b; between20And40 := between20And40 b;
       between40And60 := S (between40And60 b); above60 := above60 b |}
  else
    {| lessThan20 := lessThan20 b; between20And40 := between20And40 b;
       between40And60 := between40And60 b; above60 := S (above60 b) |}.

(** The counters after the loop over the ages of the rows, and the number
    of rows; nothing when there is no row (line 82).  The percentages
    printed and returned are [(counter / total) * 100] through
    [toFixed(2)]. *)
Definition calculateAgeDistribution (ages : list Z) : option (nat * buckets) :=
  match ages with
  | [] => None
  | _ :: _ =>
      Some (length ages,
            fold_left count_age ages
              {| lessThan20 := 0; between20And40 := 0;
                 between40And60 := 0; above60 := 0 |})
  end.

End User.

(** * Properties *)

(** ** Strings *)

Lemma append_cons c s t : String c s +:+ t = String c (s +:+ t).
Proof. reflexivity. Qed.

Lemma append_empty_r s : s +:+ EmptyString = s.
Proof. induction s as [|c s IH]; [done|]. by rewrite append_cons, IH. Qed.

Lemma push_char_append s c t : Str.push_char s c +:+ t = s +:+ String c t.
Proof.
  unfold Str.push_char. induction s as [|d s IH]; [done|].
  by rewrite !append_cons, IH.
Qed.

Lemma trimStart_head s :
  Str.trimStart s = EmptyString \/
  exists c r, Str.trimStart s = String c r /\ Str.is_ws c = false.
Proof.
  induction s as [|c r IH]; simpl; [by left|].
  destruct (Str.is_ws c) eqn:E; [exact IH|]. right. by exists c, r.
Qed.

Lemma trimEnd_idem s : Str.trimEnd (Str.trimEnd s) = Str.trimEnd s.
Proof.
  induction s as [|c r IH]; simpl; [done|].
  destruct (Str.trimEnd r) as [|d e] eqn:E.
  - destruct (Str.is_ws c) eqn:W; simpl; [done|]. by rewrite W.
  - simpl. simpl in IH. destruct (Str.trimEnd e) eqn:E'; by rewrite IH.
Qed.

Lemma trimEnd_keeps_head c r :
  Str.is_ws c = false -> exists r', Str.trimEnd (String c r) = String c r'.
Proof.
  intros W. simpl. destruct (Str.trimEnd r); rewrite ?W; eauto.
Qed.

Lemma trim_idem s : Str.trim (Str.trim s) = Str.trim s.
Proof.
  unfold Str.trim. destruct (trimStart_head s) as [->|(c & r & -> & W)]; [done|].
  destruct (trimEnd_keeps_head c r W) as [r' E].
  rewrite E. cbn [Str.trimStart]. rewrite W, <- E. apply trimEnd_idem.
Qed.

Lemma occurs_trimStart c s :
  Str.occurs c s = false -> Str.occurs c (Str.trimStart s) = false.
Proof.
  induction s as [|d r IH]; simpl; [done|].
  intros [H1 H2]%orb_false_iff. destruct (Str.is_ws d); [by apply IH|].
  simpl. by rewrite H1, H2.
Qed.

Lemma occurs_trimEnd c s :
  Str.occurs c s = false -> Str.occurs c (Str.trimEnd s) = false.
Proof.
  induction s as [|d r IH]; simpl; [done|].
  intros [H1 H2]%orb_false_iff. specialize (IH H2).
  destruct (Str.trimEnd r) eqn:E.
  - destruct (Str.is_ws d); simpl; [done|]. by rewrite H1.
  - simpl. simpl in IH. by rewrite H1, IH.
Qed.

Lemma occurs_trim c s :
  Str.occurs c s = false -> Str.occurs c (Str.trim s) = false.
Proof. intros H. by apply occurs_trimEnd, occurs_trimStart. Qed.

Lemma occurs_push_char c s d :
  Str.occurs c (Str.push_char s d) = Str.occurs c s || Ascii.eqb c d.
Proof.
  unfold Str.push_char. induction s as [|e r IH]; simpl.
  - by rewrite orb_false_r.
  - by rewrite IH, orb_assoc.
Qed.

(** ** The line splitter *)

Lemma scan_loop_split_fields line : forall st,
  values (scan_loop st line) ++ [Str.trim (current (scan_loop st line))]
  = values st ++ split_fields (insideQuotes st) (current st) line.
Proof.
  induction line as [|c rest IH]; intros st; simpl; [done|].
  rewrite IH. unfold scan_step.
  destruct (Ascii.eqb c quote); simpl; [done|].
  destruct (insideQuotes st); simpl.
  - by rewrite andb_false_r.
  - rewrite andb_true_r. destruct (Ascii.eqb c comma); simpl; [|done].
    by rewrite <- app_assoc.
Qed.

Lemma parseLine_split_fields line :
  parseLine line = split_fields false EmptyString line.
Proof. unfold parseLine. by rewrite scan_loop_split_fields. Qed.

Lemma split_fields_clean line : forall q acc,
  Str.occurs quote acc = false ->
  Forall (fun f => Str.occurs quote f = false /\ Str.trim f = f)
         (split_fields q acc line).
Proof.
  induction line as [|c rest IH]; intros q acc Hacc; simpl.
  - constructor; [|constructor]. split; [by apply occurs_trim | apply trim_idem].
  - destruct (Ascii.eqb c quote) eqn:Q; [by apply IH|].
    assert (Hpush : Str.occurs quote (Str.push_char acc c) = false).
    { by rewrite occurs_push_char, Hacc, Ascii.eqb_sym, Q. }
    destruct q; [by apply IH|].
    destruct (Ascii.eqb c comma); [|by apply IH].
    constructor; [|by apply IH].
    split; [by apply occurs_trim | apply trim_idem].
Qed.

(** C9.  The line splitter is the left-to-right scan the specification
    describes: on every line it yields what the scan with an
    inside-quotes flag yields (a quote toggles the flag and is dropped, a
    comma outside quotes ends the field, every other character is
    appended, the accumulator is pushed as the last field even when
    empty); no field holds a quote character, every field is trimmed, and
    [a,"b,c",d] splits into [a], [b,c], [d]. *)
Theorem parseLine_is_the_specified_scan :
  (forall line, parseLine line = split_fields false EmptyString line) /\
  (forall line,
     Forall (fun f => Str.occurs quote f = false /\ Str.trim f = f)
            (parseLine line)) /\
  (forall line, exists fields acc,
     parseLine line = fields ++ [Str.trim acc]) /\
  parseLine ("a," +:+ String quote "b,c" +:+ String quote ",d")
  = ["a"; "b,c"; "d"] /\
  parseLine "a," = ["a"; ""].
Proof.
  split; [exact parseLine_split_fields|].
  split.
  { intros line. rewrite parseLine_split_fields. by apply split_fields_clean. }
  split.
  { intros line. unfold parseLine. eauto. }
  split; reflexivity.
Qed.

(** ** Objects *)

#[local] Set Warnings "-clear-no-such-hyp".

Lemma mergeDeep_object t a ps :
  mergeDeep t (VObj a ps) = mergeDeep_entries t ps.
Proof.
  simpl. revert t. induction ps as [|[key sv] rest IH]; intros t; [done|].
  simpl. destruct (is_plain_object sv).
  - destruct (getProp t key) as [old|].
    + destruct (truthy old).
      * destruct (mergeDeep old sv); simpl; [apply IH | done].
      * destruct (setProp t key empty_object); simpl; [|done].
        destruct (mergeDeep empty_object sv); simpl; [apply IH | done].
    + destruct (setProp t key empty_object); simpl; [|done].
      destruct (mergeDeep empty_object sv); simpl; [apply IH | done].
  - destruct (setProp t key sv); simpl; [apply IH | done].
Qed.








(** ** The deep merger *)

Lemma set_set {A} (ps : list (string * A)) k v w :
  set (set ps k v) k w = set ps k w.
Proof.
  induction ps as [|[k' v'] r IH]; simpl.
  - by rewrite String.eqb_refl.
  - destruct (String.eqb k' k) eqn:E; simpl.
    + by rewrite String.eqb_refl.
    + by rewrite E, IH.
Qed.

Lemma mergeDeep_assigns tp key sv a :
  is_plain_object sv = false ->
  mergeDeep (VObj a tp) (VObj false [(key, sv)]) = Ok (VObj a (set tp key sv)).
Proof. intros H. rewrite mergeDeep_object. simpl. by rewrite H. Qed.

Lemma mergeDeep_recurses tp key sv a old :
  is_plain_object sv = true ->
  get tp key = Some old -> truthy old = true ->
  mergeDeep (VObj a tp) (VObj false [(key, sv)])
  = (do sub <- mergeDeep old sv ; Ok (VObj a (set tp key sub))).
Proof.
  intros H G T. rewrite mergeDeep_object. simpl. rewrite H, G, T.
  by destruct (mergeDeep old sv).
Qed.

Lemma mergeDeep_fresh tp key sv a :
  is_plain_object sv = true ->
  (get tp key = None \/ exists old, get tp key = Some old /\ truthy old = false) ->
  mergeDeep (VObj a tp) (VObj false [(key, sv)])
  = (do sub <- mergeDeep empty_object sv ; Ok (VObj a (set tp key sub))).
Proof.
  intros H G. rewrite mergeDeep_object. simpl. rewrite H.
  destruct G as [->|(old & -> & ->)];
    destruct (mergeDeep empty_object sv); simpl; by rewrite ?set_set.
Qed.

(** A chain merged into an empty object gives the chain back. *)
Lemma mergeDeep_empty_nest rest : forall k v,
  is_plain_object v = false ->
  mergeDeep empty_object (nest k rest v) = Ok (nest k rest v).
Proof.
  induction rest as [|k' rest' IH]; intros k v Hv; simpl nest.
  - unfold empty_object. by rewrite mergeDeep_assigns.
  - unfold empty_object at 1.
    rewrite mergeDeep_fresh; [|by destruct rest' | by left].
    by rewrite IH.
Qed.

(** C6.  The headers [a,a.b] with the row [x,y].  When the second column
    is merged, the target holds the string [x] at [a] and the source the
    container [{b: y}]: the rule of the specification assigns the
    container over the string and gives [{a: {b: y}}].  The code tests
    the target for falsiness only, recurses into the string and throws a
    TypeError when it writes a property of it: the whole-file loader
    fails and the pipeline drops the row as a faulty one. *)
Theorem container_is_not_assigned_over_a_scalar :
  let target := VObj false [("a", VStr "x")] in
  let source := VObj false [("a", VObj false [("b", VStr "y")])] in
  createNestedObject "a.b" (coerce "y") = source /\
  (merge_rule_as_specified [("a", VStr "x")] "a" (VObj false [("b", VStr "y")]) <->
   mergeDeep target source = Ok source) /\
  mergeDeep target source = Throw TypeError /\
  buildRecord (parseLine "a,a.b") (parseLine "x,y") = Throw TypeError /\
  parse ("a,a.b" +:+ String newline "x,y")
  = ([ErrorParsingFile], Throw TypeError) /\
  (let s := Stream.run 2 [Stream.Line "a,a.b"; Stream.Line "x,y"; Stream.End] in
   Stream.calls s = [] /\
   Stream.console s = [ErrorParsingLine 2; LogParsed 0] /\
   Stream.promise s = Some (Ok 0%nat)).
Proof. repeat split; try reflexivity; intros H; exact H. Qed.

(** ** Numeric coercion *)

Ltac each_ascii c :=
  destruct c as [[] [] [] [] [] [] [] []].
















(** *** The numeric strings *)








Lemma digit_is_no_exponent c :
  is_dec_digit c = true -> Ascii.eqb c "e" || Ascii.eqb c "E" = false.
Proof. each_ascii c; vm_compute; intros H; try discriminate; done. Qed.













(** *** The value of an integer literal *)











(** ** Key shapes *)

Lemma shape_set ps k v :
  map shape_entry (set ps k v) = set (map shape_entry ps) k (shape_of v).
Proof.
  induction ps as [|[k' v'] r IH]; simpl; [done|].
  destruct (String.eqb k' k); simpl; [done|]. by rewrite IH.
Qed.

Lemma get_shape ps k :
  get (map shape_entry ps) k = option_map shape_of (get ps k).
Proof.
  induction ps as [|[k' v'] r IH]; simpl; [done|].
  by destruct (String.eqb k' k).
Qed.

Lemma scalar_is_leaf v :
  is_scalar v = true -> shape_of v = Leaf /\ is_plain_object v = false.
Proof. by destruct v. Qed.

Lemma record_like_set ps k v :
  record_like (VObj false ps) = true ->
  is_scalar v || record_like v = true ->
  record_like (VObj false (set ps k v)) = true.
Proof.
  simpl. intros H Hv. induction ps as [|[k' v'] r IH]; simpl.
  - by rewrite Hv.
  - simpl in H. apply andb_true_iff in H as [H1 H2].
    destruct (String.eqb k' k); simpl.
    + by rewrite Hv, H2.
    + by rewrite H1, (IH H2).
Qed.

Lemma record_like_get ps k old :
  record_like (VObj false ps) = true -> get ps k = Some old ->
  is_scalar old || record_like old = true.
Proof.
  simpl. induction ps as [|[k' v'] r IH]; simpl; [done|].
  intros [H1 H2]%andb_true_iff. destruct (String.eqb k' k).
  - by intros [= <-].
  - by apply IH.
Qed.

Lemma record_like_object v :
  record_like v = true -> exists ps, v = VObj false ps.
Proof. destruct v as [| | | |[] ps]; try done. eauto. Qed.

Lemma nest_is_plain_object k rest v : is_plain_object (nest k rest v) = true.
Proof. by destruct rest. Qed.

(** A scalar target cannot take a chain: the write to it throws. *)
Lemma mergeDeep_scalar_nest old k rest v :
  is_scalar old = true -> is_scalar v = true ->
  mergeDeep old (nest k rest v) = Throw TypeError.
Proof.
  intros Ho Hv. destruct rest as [|k' rest']; simpl nest;
    rewrite mergeDeep_object; simpl.
  - destruct (scalar_is_leaf v Hv) as [_ ->]. by destruct old.
  - rewrite nest_is_plain_object. by destruct old.
Qed.

Lemma mergeDeep_nest_shape rest : forall k v tp r,
  is_scalar v = true ->
  record_like (VObj false tp) = true ->
  mergeDeep (VObj false tp) (nest k rest v) = Ok r ->
  exists rp, r = VObj false rp /\ record_like r = true /\
             map shape_entry rp = add_path k rest (map shape_entry tp).
Proof.
  induction rest as [|k' rest' IH]; intros k v tp r Hv Ht; simpl nest.
  - destruct (scalar_is_leaf v Hv) as [Hleaf Hplain].
    rewrite mergeDeep_assigns by done. intros [= <-].
    eexists. split; [done|]. split.
    + apply record_like_set; [done | by rewrite Hv].
    + simpl. by rewrite shape_set, Hleaf.
  - assert (fresh : forall sub,
      mergeDeep empty_object (nest k' rest' v) = Ok sub ->
      (match get (map shape_entry tp) (Str.trim k) with
       | Some (Node c) => c | _ => [] end) = [] ->
      exists rp, VObj false (set tp (Str.trim k) sub) = VObj false rp /\
        record_like (VObj false (set tp (Str.trim k) sub)) = true /\
        map shape_entry rp = add_path k (k' :: rest') (map shape_entry tp)).
    { intros sub Hs Hg. apply (IH k' v [] sub Hv eq_refl) in Hs
        as (sp & -> & Hrl & Hsh).
      eexists. split; [done|]. split.
      - apply record_like_set; [done | by rewrite Hrl, orb_true_r].
      - rewrite shape_set. simpl add_path. rewrite Hg.
        cbn [shape_of]. by rewrite Hsh. }
    rewrite mergeDeep_object. simpl. rewrite nest_is_plain_object.
    destruct (get tp (Str.trim k)) as [old|] eqn:G.
    + pose proof (record_like_get tp _ old Ht G) as Hold.
      destruct (truthy old) eqn:T.
      * destruct (is_scalar old) eqn:So.
        { by rewrite mergeDeep_scalar_nest. }
        simpl in Hold. destruct (record_like_object old Hold) as [c ->].
        destruct (mergeDeep (VObj false c) (nest k' rest' v)) as [sub|] eqn:M;
          simpl; [|done].
        intros [= <-].
        apply (IH k' v c sub Hv Hold) in M as (sp & -> & Hrl & Hsh).
        eexists. split; [done|]. split.
        -- apply record_like_set; [done | by rewrite Hrl, orb_true_r].
        -- rewrite shape_set. simpl add_path. rewrite get_shape, G.
           cbn [option_map shape_of]. by rewrite Hsh.
      * destruct (mergeDeep empty_object (nest k' rest' v)) as [sub|] eqn:M;
          simpl; [|done].
        intros [= <-]. rewrite set_set. apply fresh; [done|].
        rewrite get_shape, G. simpl.
        destruct old as [| | | |[] c]; try done.
    + destruct (mergeDeep empty_object (nest k' rest' v)) as [sub|] eqn:M;
        simpl; [|done].
      intros [= <-]. rewrite set_set. apply fresh; [done|].
      by rewrite get_shape, G.
Qed.

Lemma split_acc_cons sep s : forall cur,
  exists k rest, Str.split_acc sep cur s = k :: rest.
Proof.
  induction s as [|c r IH]; intros cur; simpl; [eauto|].
  destruct (Ascii.eqb c sep); eauto.
Qed.

Lemma coerce_is_scalar v : is_scalar (coerce v) = true.
Proof. unfold coerce. by destruct (_ && _). Qed.

Lemma buildRecord_from_shape headers : forall vals tp r,
  record_like (VObj false tp) = true ->
  buildRecord_from (VObj false tp) headers vals = Ok r ->
  record_like r = true /\
  shape_of r = Node (fold_left add_header headers (map shape_entry tp)).
Proof.
  induction headers as [|h hs IH]; intros vals tp r Ht; simpl.
  - intros [= <-]. done.
  - destruct vals as [|v vals]; [done|].
    unfold createNestedObject, add_header.
    destruct (split_acc_cons dot (Str.trim h) EmptyString)
      as (k & rest & E).
    unfold Str.split. rewrite E.
    destruct (mergeDeep (VObj false tp) (nest k rest (coerce (Str.trim v))))
      as [r1|] eqn:M; simpl; [|done].
    apply mergeDeep_nest_shape in M as (rp & -> & Hrl & Hsh);
      [|apply coerce_is_scalar | done].
    intros H. apply IH in H; [|done]. by rewrite Hsh in H.
Qed.


(** ** Records of the loader and of the pipeline *)



(** Evaluation of the listeners on a state, by value. *)
Ltac stream_eval :=
  cbv [Stream.step Stream.on_line Stream.resume Stream.rl_close
       Stream.on_close Stream.await_onBatch Stream.settle Stream.rl_pause
       Stream.rl_resume Stream.batch_renew Stream.batch_push Stream.print
       Stream.set_headers Stream.set_arrays Stream.set_lineNumber
       Stream.set_totalRecords Stream.set_paused Stream.set_closed
       Stream.set_promise Stream.set_pending Stream.set_calls
       Stream.set_console Stream.batch_content Stream.headers Stream.arrays Stream.batch
       Stream.lineNumber Stream.totalRecords Stream.paused Stream.closed
       Stream.promise Stream.pending Stream.calls Stream.console] in *.






Section RecordsInvariant.

Variable P : list string -> value -> Prop.
Hypothesis P_built : forall hs vals r, buildRecord hs vals = Ok r -> P hs r.










End RecordsInvariant.




(** ** Rows whose column count differs from the header's *)

Lemma same_progress_forget s1 s2 : same_progress s1 s2 <-> forget s1 = forget s2.
Proof.
  unfold same_progress, forget. split.
  - intros (-> & -> & -> & -> & -> & -> & -> & -> & ->). done.
  - intros [= -> -> -> -> -> -> -> -> ->]. done.
Qed.

Lemma forget_step bs ev s :
  Stream.lineNumber s <> 0%nat ->
  forget (Stream.step bs ev s) = forget (Stream.step bs ev (forget s)).
Proof.
  intros Hn. destruct s as [h a b n t p c pr pe ca co]. simpl in Hn.
  destruct n as [|n]; [done|].
  destruct ev as [line|i outcome| |e]; unfold forget; stream_eval.
  - destruct (negb (non_blank line)); [done|]. simpl.
    destruct h as [hs|]; [|done].
    destruct (negb _); [done|].
    destruct (buildRecord hs (parseLine line)); [|done].
    stream_eval. by destruct (bs <=? _)%Z.
  - destruct (pe !! i) as [[]|]; [| |done]; destruct outcome; stream_eval;
      try done.
    + destruct c; stream_eval; [by destruct pr|].
      destruct (0 <? _)%nat; stream_eval; by destruct pr.
    + by destruct pr.
    + by destruct pr.
  - destruct c; stream_eval; [done|].
    destruct (0 <? _)%nat; stream_eval; by destruct pr.
  - by destruct pr.
Qed.

Lemma lineNumber_step bs ev s :
  Stream.lineNumber s <> 0%nat -> Stream.lineNumber (Stream.step bs ev s) <> 0%nat.
Proof.
  intros Hn. destruct s as [h a b n t p c pr pe ca co]. simpl in Hn.
  destruct ev as [line|i outcome| |e]; stream_eval.
  - destruct (negb (non_blank line)); [done|].
    destruct (S n =? 1)%nat; [done|].
    destruct h as [hs|]; [|done].
    destruct (negb _); [done|].
    destruct (buildRecord hs (parseLine line)); [|done].
    stream_eval. by destruct (bs <=? _)%Z.
  - destruct (pe !! i) as [[]|]; [| |done]; destruct outcome; stream_eval;
      try done.
    + destruct c; stream_eval; [by destruct pr|].
      destruct (0 <? _)%nat; stream_eval; by destruct pr.
    + by destruct pr.
    + by destruct pr.
  - destruct c; stream_eval; [done|].
    destruct (0 <? _)%nat; stream_eval; by destruct pr.
  - by destruct pr.
Qed.

Lemma same_progress_run_from bs evs : forall s1 s2,
  Stream.lineNumber s1 <> 0%nat -> Stream.lineNumber s2 <> 0%nat ->
  forget s1 = forget s2 ->
  forget (Stream.run_from bs evs s1) = forget (Stream.run_from bs evs s2).
Proof.
  induction evs as [|ev evs IH]; intros s1 s2 H1 H2 E; [done|].
  simpl. apply IH; try by apply lineNumber_step.
  by rewrite (forget_step bs ev s1), (forget_step bs ev s2), E.
Qed.

(** The header list is set by the first line or never. *)
Lemma headers_after_first_line bs evs : forall s,
  (Stream.lineNumber s = 0%nat -> Stream.headers s = None) ->
  Stream.lineNumber (Stream.run_from bs evs s) = 0%nat ->
  Stream.headers (Stream.run_from bs evs s) = None.
Proof.
  induction evs as [|ev evs IH]; intros s H; [done|].
  simpl. apply IH. intros Hn.
  destruct (Nat.eq_dec (Stream.lineNumber s) 0) as [E|E].
  - specialize (H E). clear IH.
    destruct s as [h a b n t p c pr pe ca co]. simpl in *. subst.
    destruct ev as [line|i outcome| |e]; stream_eval.
    + destruct (negb (non_blank line)); done.
    + destruct (pe !! i) as [[]|]; [| |done]; destruct outcome; stream_eval;
        try done; try (by destruct pr).
      destruct c; stream_eval; [by destruct pr|].
      destruct (0 <? _)%nat; stream_eval; by destruct pr.
    + destruct c; stream_eval; [done|].
      destruct (0 <? _)%nat; stream_eval; by destruct pr.
    + by destruct pr.
  - by apply (lineNumber_step bs ev) in E.
Qed.

Lemma mismatch_line_step bs line s hs :
  Stream.headers s = Some hs ->
  Stream.lineNumber s <> 0%nat ->
  non_blank line = true ->
  length (parseLine line) <> length hs ->
  forget (Stream.step bs (Stream.Line line) s) = forget s /\
  Stream.console (Stream.step bs (Stream.Line line) s)
  = Stream.console s ++ [WarnSkipping (S (Stream.lineNumber s))].
Proof.
  intros Hh Hn Hb Hl. destruct s as [h a b n t p c pr pe ca co].
  simpl in *. subst h. destruct n as [|n]; [done|].
  unfold forget. stream_eval. rewrite Hb. simpl.
  apply Nat.eqb_neq in Hl. by rewrite Hl.
Qed.

Lemma parse_rows_result_any_index hs rows : forall i j recs,
  snd (parse_rows hs i rows recs) = snd (parse_rows hs j rows recs).
Proof.
  induction rows as [|line rows IH]; intros i j recs; simpl; [done|].
  destruct (negb _).
  - specialize (IH (S i) (S j) recs).
    destruct (parse_rows hs (S i) rows recs), (parse_rows hs (S j) rows recs).
    exact IH.
  - destruct (buildRecord hs (parseLine line)); [apply IH | done].
Qed.

Lemma parse_rows_skips hs line pre : forall post i recs,
  length (parseLine line) <> length hs ->
  snd (parse_rows hs i (pre ++ line :: post) recs)
  = snd (parse_rows hs i (pre ++ post) recs) /\
  (forall out records,
     parse_rows hs i (pre ++ line :: post) recs = (out, Ok records) ->
     In (WarnSkipping (i + length pre + 1)) out).
Proof.
  intros post i recs Hl. apply Nat.eqb_neq in Hl.
  revert i recs. induction pre as [|row pre IH]; intros i recs; simpl.
  - rewrite Hl. simpl.
    pose proof (parse_rows_result_any_index hs post (S i) i recs) as E.
    destruct (parse_rows hs (S i) post recs) as [out r]. simpl in *.
    split; [done|]. intros out' records [= <- _]. left. f_equal. lia.
  - destruct (negb (length (parseLine row) =? length hs)%nat).
    + destruct (IH (S i) recs) as [E W].
      destruct (parse_rows hs (S i) (pre ++ line :: post) recs) as [o1 r1].
      destruct (parse_rows hs (S i) (pre ++ post) recs) as [o2 r2].
      simpl in *. split; [done|].
      intros out records [= <- ->]. right.
      replace (i + S (length pre) + 1)%nat with (S i + length pre + 1)%nat by lia.
      by eapply W.
    + destruct (buildRecord hs (parseLine row)) as [record|]; [|done].
      destruct (IH (S i) (recs ++ [record])) as [E W]. split; [done|].
      intros out records H.
      replace (i + S (length pre) + 1)%nat with (S i + length pre + 1)%nat by lia.
      by eapply W.
Qed.

(** C8.  A data line whose field count differs from the header's leaves
    no record.  In the streaming pipeline, once the header is read, such a
    line changes nothing but the line counter and the console, where it
    adds one warning: the batches, the consumer calls, the total and the
    outcome of the whole run are those of the run without that line.  In
    the whole-file loader the loop prints the warning and goes on: the
    records returned, or the failure of another row, are those of the
    file without that line. *)
Theorem mismatched_row_is_dropped hs line :
  non_blank line = true ->
  length (parseLine line) <> length hs ->
  (forall batchSize pre post,
     Stream.headers (Stream.run batchSize pre) = Some hs ->
     let s := Stream.run batchSize pre in
     let s1 := Stream.step batchSize (Stream.Line line) s in
     same_progress s1 s /\
     Stream.console s1 = Stream.console s ++ [WarnSkipping (S (Stream.lineNumber s))] /\
     same_progress (Stream.run batchSize (pre ++ Stream.Line line :: post))
                   (Stream.run batchSize (pre ++ post))) /\
  (forall pre post i recs,
     snd (parse_rows hs i (pre ++ line :: post) recs)
     = snd (parse_rows hs i (pre ++ post) recs) /\
     (forall out records,
        parse_rows hs i (pre ++ line :: post) recs = (out, Ok records) ->
        In (WarnSkipping (i + length pre + 1)) out)).
Proof.
  intros Hb Hl. split.
  - intros batchSize pre post Hh s s1.
    assert (Hn : Stream.lineNumber s <> 0%nat).
    { intros E. subst s. unfold Stream.run in *.
      rewrite (headers_after_first_line batchSize pre Stream.init) in Hh; done. }
    destruct (mismatch_line_step batchSize line s hs Hh Hn Hb Hl) as [E C].
    split; [by apply same_progress_forget|]. split; [done|].
    apply same_progress_forget. unfold Stream.run, Stream.run_from.
    rewrite !fold_left_app. cbn [fold_left].
    apply same_progress_run_from;
      [exact (lineNumber_step batchSize (Stream.Line line) _ Hn)
      | exact Hn | exact E].
  - intros pre post i recs. by apply parse_rows_skips.
Qed.

Lemma mismatched_row_is_dropped_witness :
  Stream.calls (Stream.run 2 [Stream.Line "a,b"; Stream.Line "1,2"; Stream.Line "3"; Stream.Line "4,5"])
  = Stream.calls (Stream.run 2 [Stream.Line "a,b"; Stream.Line "1,2"; Stream.Line "4,5"]) /\
  snd (parse_rows ["a"; "b"] 1 ["1,2"; "3"; "4,5"] [])
  = snd (parse_rows ["a"; "b"] 1 ["1,2"; "4,5"] []).
Proof.
  destruct (mismatched_row_is_dropped ["a"; "b"] "3") as [HS HP];
    [reflexivity | simpl; lia |].
  split.
  - destruct (HS 2%Z [Stream.Line "a,b"; Stream.Line "1,2"] [Stream.Line "4,5"] eq_refl)
      as (_ & _ & H).
    apply H.
  - apply (HP ["1,2"] ["4,5"] 1%nat []).
Defined.


(** ** The pipeline under the schedules of the runtime *)

(** C1.  The file [h, 1, 2, 3] arrives as one chunk and [batchSize] is 2:
    the line [3] is read while the consumer call for the full batch
    [1, 2] is in flight, it is pushed onto the array the consumer holds,
    and the consumer is called again, with three records. *)
Theorem line_read_while_batch_in_flight :
  let before := Stream.run 2 [Stream.Line "h"; Stream.Line "1"; Stream.Line "2"] in
  let after := Stream.step 2 (Stream.Line "3") before in
  Stream.calls before = [(0%nat, [row 1; row 2])] /\
  Stream.line_call_in_flight before = true /\
  Stream.paused before = true /\
  Stream.lineNumber after = 4%nat /\
  Stream.arrays after = [[row 1; row 2; row 3]] /\
  Stream.calls after
  = [(0%nat, [row 1; row 2]); (0%nat, [row 1; row 2; row 3])] /\
  Stream.call_sizes after = [2%nat; 3%nat].
Proof. repeat split; reflexivity. Qed.

(** When a consumer call made by the ['line'] listener is rejected, the
    listener closes the interface before it rejects the promise; the
    ['close'] listener finds the batch as the failed call left it and
    hands it to the consumer again. *)
Lemma rejected_batch_is_flushed bs i e s :
  Stream.pending s !! i = Some Stream.AwaitInLine ->
  Stream.closed s = false ->
  Stream.batch_content s <> [] ->
  let s' := Stream.step bs (Stream.Settled i (Some e)) s in
  Stream.calls s' = Stream.calls s ++ [(Stream.batch s, Stream.batch_content s)] /\
  Stream.pending s' = delete i (Stream.pending s) ++ [Stream.AwaitInClose] /\
  (Stream.promise s = None -> Stream.promise s' = Some (Throw (Raised e))).
Proof.
  intros Hp Hc Hb. destruct s as [h a b n t p c pr pe ca co]. simpl in *.
  subst c. stream_eval. rewrite Hp. stream_eval.
  destruct (nth b a []) eqn:E; [done|]. simpl.
  repeat split; by destruct pr.
Qed.

(** C2.  The file [h, 1] with [batchSize] 1 and a consumer that rejects
    its first call: the failure reaches the caller, and the consumer has
    been called a second time, with the batch that failed. *)
Theorem failed_batch_is_handed_over_again :
  let s := Stream.run 1 [Stream.Line "h"; Stream.Line "1"; Stream.Settled 0 (Some "boom")] in
  Stream.calls s = [(0%nat, [row 1]); (0%nat, [row 1])] /\
  Stream.pending s = [Stream.AwaitInClose] /\
  Stream.promise s = Some (Throw (Raised "boom")) /\
  Stream.calls (Stream.sequential 1 (fun _ => Some "boom") ["h"; "1"])
  = [(0%nat, [row 1]); (0%nat, [row 1])].
Proof. repeat split; reflexivity. Qed.

Lemma rejected_batch_is_flushed_witness :
  Stream.calls (Stream.run 1 [Stream.Line "h"; Stream.Line "1"; Stream.Settled 0 (Some "boom")])
  = [(0%nat, [row 1])] ++ [(0%nat, [row 1])].
Proof.
  apply (rejected_batch_is_flushed 1 0 "boom"
           (Stream.run 1 [Stream.Line "h"; Stream.Line "1"])); [reflexivity.. | discriminate].
Defined.

(** After a blank first line the header list is never set and no line
    yields a record. *)
Lemma blank_first_line_loses_the_header bs line evs :
  non_blank line = false ->
  let s := Stream.run bs (Stream.Line line :: evs) in
  Stream.headers s = None /\ Stream.calls s = [] /\
  Stream.totalRecords s = 0%nat.
Proof.
  intros Hb. unfold Stream.run. simpl.
  set (s0 := Stream.on_line bs line Stream.init).
  assert (I : Stream.headers s0 = None /\ Stream.calls s0 = [] /\
              Stream.totalRecords s0 = 0%nat /\ Stream.lineNumber s0 <> 0%nat /\
              Stream.pending s0 = [] /\
              Stream.batch_content s0 = []).
  { subst s0. unfold Stream.on_line. rewrite Hb. by simpl. }
  clearbody s0. revert s0 I.
  induction evs as [|ev evs IH]; intros s (Hh & Hc & Ht & Hn & Hp & Ha);
    [done|].
  simpl. apply IH. clear IH.
  destruct s as [h a b n t p c pr pe ca co]. simpl in *. subst.
  destruct n as [|n]; [done|].
  destruct ev as [l|i outcome| |e]; stream_eval.
  - destruct (negb (non_blank l)); [done|]. simpl.
    destruct n; done.
  - by rewrite lookup_nil.
  - destruct c; stream_eval; [done|]. rewrite Ha. simpl. by destruct pr.
  - by destruct pr.
Qed.

(** C3.  The file with the lines [(blank), h, 1]: the pipeline takes no
    header, reports an error for each of [h] and [1] and resolves with 0
    records, where the whole-file loader reads [h] as the header and
    returns the record of [1]. *)
Theorem blank_line_before_header_loses_every_row :
  let s := Stream.run 2 [Stream.Line ""; Stream.Line "h"; Stream.Line "1"; Stream.End] in
  Stream.headers s = None /\
  Stream.calls s = [] /\
  Stream.promise s = Some (Ok 0%nat) /\
  Stream.console s = [ErrorParsingLine 2; ErrorParsingLine 3; LogParsed 0] /\
  Stream.lineNumber (Stream.run 2 [Stream.Line ""]) = 1%nat /\
  parse_lines (List.filter non_blank [""; "h"; "1"]) = ([LogParsed 1], Ok [row 1]).
Proof. repeat split; reflexivity. Qed.

Lemma blank_first_line_loses_the_header_witness :
  Stream.headers (Stream.run 2 [Stream.Line "  "; Stream.Line "h"; Stream.Line "1"; Stream.End]) = None.
Proof.
  apply (blank_first_line_loses_the_header 2 "  " [Stream.Line "h"; Stream.Line "1"; Stream.End]).
  reflexivity.
Defined.

(** C4.  The file [h, 1, 2, 3, 4, 5] arrives as one chunk and [batchSize]
    is 2: every line from [2] on finds the batch full and calls the
    consumer, four calls in all, each with the one array that ends up
    holding the five records; the run resolves with 5. *)
Theorem five_rows_in_one_chunk :
  let lines := [Stream.Line "h"; Stream.Line "1"; Stream.Line "2"; Stream.Line "3"; Stream.Line "4"; Stream.Line "5"] in
  let settled := [Stream.Settled 0 None; Stream.Settled 0 None; Stream.Settled 0 None; Stream.Settled 0 None] in
  let s := Stream.run 2 (lines ++ settled ++ [Stream.End]) in
  Stream.call_sizes s = [2; 3; 4; 5]%nat /\
  map fst (Stream.calls s) = [0; 0; 0; 0]%nat /\
  nth 0 (Stream.arrays s) [] = [row 1; row 2; row 3; row 4; row 5] /\
  Stream.promise s = Some (Ok 5%nat) /\
  Stream.call_sizes (Stream.sequential 2 (fun _ => None) ["h"; "1"; "2"; "3"; "4"; "5"])
  = [2; 2; 1]%nat.
Proof. repeat split; reflexivity. Qed.


(** ** What holds on every schedule *)

Lemma nth_insert_same {A} (l : list A) i x d :
  (i < length l)%nat -> nth i (<[i := x]> l) d = x.
Proof.
  revert i. induction l as [|a l IH]; intros i H; simpl in H; [lia|].
  destruct i; simpl; [done|]. apply IH. lia.
Qed.

Lemma calls_inv_await k s :
  calls_inv s -> Stream.batch_content s <> [] ->
  calls_inv (Stream.await_onBatch k s).
Proof.
  intros [Hb Hc] Hne. split; [done|]. stream_eval.
  apply Forall_app. split; [done|]. by constructor.
Qed.

Lemma calls_inv_settle r s : calls_inv s -> calls_inv (Stream.settle r s).
Proof. unfold Stream.settle. by destruct (Stream.promise s). Qed.

Lemma calls_inv_close s : calls_inv s -> calls_inv (Stream.rl_close s).
Proof.
  intros H. unfold Stream.rl_close. destruct (Stream.closed s); [done|].
  unfold Stream.on_close.
  destruct (0 <? _)%nat eqn:E.
  - apply calls_inv_await; [done|]. apply Nat.ltb_lt in E.
    intros E'. rewrite E' in E. simpl in E. lia.
  - by apply calls_inv_settle.
Qed.

Lemma calls_inv_step bs ev s : calls_inv s -> calls_inv (Stream.step bs ev s).
Proof.
  intros H. destruct ev as [line|i outcome| |e]; simpl.
  - unfold Stream.on_line. set (s1 := Stream.set_lineNumber _ s).
    destruct (negb (non_blank line)); [done|].
    destruct (Stream.lineNumber s1 =? 1)%nat; [done|].
    destruct (Stream.headers s1) as [hs|]; [|done].
    destruct (negb _); [done|].
    destruct (buildRecord hs (parseLine line)) as [record|]; [|done].
    set (s2 := Stream.set_totalRecords _ _).
    assert (E : Stream.batch_content s2
                = Stream.batch_content s ++ [record]).
    { subst s2 s1. destruct H as [Hb _]. stream_eval.
      by apply nth_insert_same. }
    assert (I2 : calls_inv s2).
    { destruct H as [Hb Hc]. split; [|done]. subst s2 s1. stream_eval.
      by rewrite length_insert. }
    destruct (bs <=? _)%Z; [|done].
    apply (calls_inv_await _ (Stream.rl_pause s2)); [done|].
    change (Stream.batch_content (Stream.rl_pause s2))
      with (Stream.batch_content s2).
    rewrite E. by destruct (Stream.batch_content s).
  - destruct (Stream.pending s !! i) as [k|]; [|done].
    set (s1 := Stream.set_pending _ s).
    assert (I1 : calls_inv s1) by done.
    destruct k, outcome as [e|]; simpl.
    + by apply calls_inv_settle, calls_inv_close.
    + destruct I1 as [Hb Hc]. split; [|done]. stream_eval.
      rewrite length_app. simpl. lia.
    + by apply calls_inv_settle.
    + by apply calls_inv_settle.
  - by apply calls_inv_close.
  - by apply calls_inv_settle.
Qed.

Lemma calls_inv_run bs evs : calls_inv (Stream.run bs evs).
Proof.
  unfold Stream.run.
  assert (H : calls_inv Stream.init) by (split; [simpl; lia | constructor]).
  revert H. generalize Stream.init.
  induction evs as [|ev evs IH]; intros s H; [done|].
  simpl. by apply IH, calls_inv_step.
Qed.

(** X19.  No consumer call is made with an empty batch, on any schedule. *)
Lemma no_call_with_empty_batch bs evs :
  Forall (fun c => snd c <> []) (Stream.calls (Stream.run bs evs)).
Proof. by destruct (calls_inv_run bs evs). Qed.

(** X21.  At the end of the input a non-empty batch is handed over in one
    call, and the total is reported when that call is fulfilled. *)
Lemma final_batch_is_flushed bs s :
  Stream.closed s = false ->
  Stream.batch_content s <> [] ->
  let s1 := Stream.step bs Stream.End s in
  Stream.calls s1 = Stream.calls s ++ [(Stream.batch s, Stream.batch_content s)] /\
  Stream.pending s1 = Stream.pending s ++ [Stream.AwaitInClose] /\
  Stream.promise s1 = Stream.promise s /\
  (Stream.promise s = None ->
   Stream.promise
     (Stream.step bs (Stream.Settled (length (Stream.pending s)) None) s1)
   = Some (Ok (Stream.totalRecords s))).
Proof.
  intros Hc Hb. destruct s as [h a b n t p c pr pe ca co]. simpl in *.
  subst c. stream_eval.
  destruct (nth b a []) eqn:E; [done|]. simpl.
  repeat split. intros ->.
  rewrite lookup_app_r by lia. rewrite Nat.sub_diag. simpl. done.
Qed.

Lemma final_batch_is_flushed_witness :
  Stream.calls (Stream.run 2 [Stream.Line "h"; Stream.Line "1"; Stream.End]) = [] ++ [(0%nat, [row 1])].
Proof.
  apply (final_batch_is_flushed 2 (Stream.run 2 [Stream.Line "h"; Stream.Line "1"]));
    [reflexivity | discriminate].
Defined.

(** A blank line after the first line changes the line counter only. *)
Lemma blank_line_is_skipped bs line s :
  non_blank line = false ->
  Stream.step bs (Stream.Line line) s = Stream.set_lineNumber (S (Stream.lineNumber s)) s.
Proof. intros H. simpl. unfold Stream.on_line. by rewrite H. Qed.

Lemma blank_line_is_skipped_witness :
  Stream.step 2 (Stream.Line " ") (Stream.run 2 [Stream.Line "h"])
  = Stream.set_lineNumber 2 (Stream.run 2 [Stream.Line "h"]).
Proof. by apply (blank_line_is_skipped 2 " " (Stream.run 2 [Stream.Line "h"])). Defined.


(** ** What holds when the source stops at once on [rl.pause()] *)

Lemma filter_app_length {A} (f : A -> bool) l x :
  length (List.filter f (l ++ [x]))
  = (length (List.filter f l) + (if f x then 1 else 0))%nat.
Proof. rewrite List.filter_app, length_app. simpl. by destruct (f x). Qed.

Lemma filter_delete_length {A} (f : A -> bool) (l : list A) : forall i x,
  l !! i = Some x ->
  length (List.filter f (delete i l))
  = (length (List.filter f l) - (if f x then 1 else 0))%nat.
Proof.
  induction l as [|a l IH]; intros i x H; [done|].
  destruct i; simpl in *.
  - injection H as ->. destruct (f x); simpl; lia.
  - specialize (IH i x H). destruct (f a); simpl; rewrite IH; [|done].
    destruct (f x) eqn:E; [|lia].
    assert (0 < length (List.filter f l))%nat; [|lia].
    clear IH. revert i H. induction l as [|b l IHl]; intros i H; [done|].
    destruct i; simpl in *.
    + injection H as ->. rewrite E. simpl. lia.
    + destruct (f b); simpl; [lia|]. by eapply IHl.
Qed.

Lemma Forall_nth_default {A} (P : A -> Prop) (l : list A) d : forall i,
  Forall P l -> P d -> P (nth i l d).
Proof.
  induction l as [|a l IH]; intros i H Hd; [by destruct i|].
  inversion_clear H. destruct i; simpl; auto.
Qed.

Lemma Forall_insert_list {A} (P : A -> Prop) (l : list A) : forall i x,
  Forall P l -> P x -> Forall P (<[i := x]> l).
Proof.
  induction l as [|a l IH]; intros i x H Hx; [done|].
  inversion_clear H. destruct i; simpl; constructor; auto.
Qed.

Ltac bp_split := repeat match goal with |- _ /\ _ => split end.

Section Backpressure.

Variable bs : Z.
Hypothesis bs_positive : (1 <= bs)%Z.

Lemma backpressure_inv_init : backpressure_inv bs Stream.init.
Proof.
  unfold backpressure_inv, Stream.line_calls. simpl.
  repeat split; try lia.
  - repeat constructor. simpl. lia.
  - constructor.
Qed.

Lemma backpressure_inv_settle r s :
  backpressure_inv bs s -> backpressure_inv bs (Stream.settle r s).
Proof. unfold Stream.settle. by destruct (Stream.promise s). Qed.

Lemma backpressure_inv_close s :
  backpressure_inv bs s -> backpressure_inv bs (Stream.rl_close s).
Proof.
  intros H. unfold Stream.rl_close. destruct (Stream.closed s) eqn:C; [done|].
  destruct H as (Hb & Ha & Hc & Hl & _).
  destruct s as [h a b n t p c pr pe ca co]. stream_eval. simpl in *.
  destruct (0 <? _)%nat; stream_eval; [|destruct pr];
    unfold backpressure_inv, Stream.line_calls; stream_eval;
    bp_split; try done.
  - apply Forall_app. split; [done|]. constructor; [|done]. simpl.
    apply Forall_nth_default; [done | simpl; lia].
  - rewrite filter_app_length. simpl. unfold Stream.line_calls in Hl.
    simpl in Hl. lia.
Qed.

Lemma backpressure_inv_step ev s :
  backpressure_inv bs s ->
  match ev with
  | Stream.Line _ => Stream.paused s = false /\ Stream.closed s = false
  | _ => True
  end ->
  backpressure_inv bs (Stream.step bs ev s).
Proof.
  intros H Hev. destruct ev as [line|i outcome| |e]; simpl.
  - destruct Hev as [Hp Hc]. unfold Stream.on_line.
    set (s1 := Stream.set_lineNumber _ s).
    assert (I1 : backpressure_inv bs s1) by done.
    destruct (negb (non_blank line)); [done|].
    destruct (Stream.lineNumber s1 =? 1)%nat; [done|].
    destruct (Stream.headers s1) as [hs|]; [|done].
    destruct (negb _); [done|].
    destruct (buildRecord hs (parseLine line)) as [record|]; [|done].
    clear I1. subst s1.
    destruct H as (Hb & Ha & Hcalls & Hl & Hfree).
    destruct (Hfree Hc Hp) as [Hlen Hnone].
    destruct s as [h a b n t p c pr pe ca co].
    unfold Stream.line_calls, Stream.batch_content in *. simpl in *. subst p c.
    assert (Hnew : (Z.of_nat (length (nth b a [] ++ [record])) <= bs)%Z).
    { rewrite length_app. simpl. lia. }
    stream_eval. rewrite (nth_insert_same a b _ [] Hb).
    destruct (bs <=? _)%Z eqn:Full;
      unfold backpressure_inv, Stream.line_calls; stream_eval;
      rewrite ?length_insert, ?(nth_insert_same a b _ [] Hb).
    + bp_split; try done.
      * by apply Forall_insert_list.
      * apply Forall_app. split; [done|]. by constructor.
      * rewrite filter_app_length. simpl. lia.
    + apply Z.leb_gt in Full.
      bp_split; try done; try lia; try (by apply Forall_insert_list).
  - destruct (Stream.pending s !! i) as [k|] eqn:Hi; [|done].
    destruct H as (Hb & Ha & Hcalls & Hl & Hfree).
    destruct s as [h a b n t p c pr pe ca co].
    unfold Stream.line_calls, Stream.batch_content in *. simpl in *.
    pose proof (filter_delete_length Stream.is_line_call pe i k Hi) as Hdel.
    assert (Hrest : backpressure_inv bs
              {| Stream.headers := h; Stream.arrays := a; Stream.batch := b;
                 Stream.lineNumber := n; Stream.totalRecords := t;
                 Stream.paused := p; Stream.closed := c; Stream.promise := pr;
                 Stream.pending := delete i pe; Stream.calls := ca;
                 Stream.console := co |}).
    { unfold backpressure_inv, Stream.line_calls. simpl.
      bp_split; try done; try lia.
      intros Ec Ep. destruct (Hfree Ec Ep). split; [done | lia]. }
    destruct k, outcome as [e|]; simpl in Hdel.
    + by apply backpressure_inv_settle, backpressure_inv_close.
    + unfold backpressure_inv, Stream.line_calls. stream_eval.
      rewrite length_app. simpl.
      bp_split; try lia.
      * apply Forall_app. split; [done|]. repeat constructor. simpl. lia.
      * done.
      * intros _ _. rewrite app_nth2 by lia. rewrite Nat.sub_diag. simpl.
        split; lia.
    + by apply backpressure_inv_settle.
    + by apply (backpressure_inv_settle (Ok t)).
  - by apply backpressure_inv_close.
  - by apply backpressure_inv_settle.
Qed.

Lemma backpressure_inv_run_from evs : forall s,
  backpressure_inv bs s -> Stream.prompt_source bs evs s ->
  backpressure_inv bs (Stream.run_from bs evs s).
Proof.
  induction evs as [|ev evs IH]; intros s H Hp; [done|].
  simpl in *. destruct Hp as [Hev Hp]. apply IH; [|done].
  by apply backpressure_inv_step.
Qed.

End Backpressure.

(** X20.  With a source that stops at once on [rl.pause()] and a positive
    [batchSize], the consumer never gets more than [batchSize] records,
    and whenever a call of the ['line'] listener is in flight the
    interface is paused or closed, so that no line arrives. *)
Lemma backpressure_of_prompt_source bs evs :
  (1 <= bs)%Z ->
  Stream.prompt_source bs evs Stream.init ->
  let s := Stream.run bs evs in
  Forall (fun n => (Z.of_nat n <= bs)%Z) (Stream.call_sizes s) /\
  (Stream.line_call_in_flight s = true ->
   Stream.paused s = true \/ Stream.closed s = true).
Proof.
  intros Hbs Hp s.
  destruct (backpressure_inv_run_from bs Hbs evs _
              (backpressure_inv_init bs Hbs) Hp) as (_ & _ & Hc & _ & Hfree).
  fold (Stream.run bs evs) in Hc, Hfree. fold s in Hc, Hfree. split.
  - unfold Stream.call_sizes. by apply Forall_map.
  - unfold Stream.line_call_in_flight. intros Hin%Nat.ltb_lt.
    destruct (Stream.closed s); [by right|].
    destruct (Stream.paused s); [by left|].
    destruct (Hfree eq_refl eq_refl). lia.
Qed.

Lemma backpressure_of_prompt_source_witness :
  Forall (fun n => (Z.of_nat n <= 2)%Z)
    (Stream.call_sizes
       (Stream.run 2 [Stream.Line "h"; Stream.Line "1"; Stream.Line "2"; Stream.Settled 0 None; Stream.Line "3"; Stream.End])).
Proof.
  apply (backpressure_of_prompt_source 2
           [Stream.Line "h"; Stream.Line "1"; Stream.Line "2"; Stream.Settled 0 None; Stream.Line "3"; Stream.End]);
    [lia | simpl; tauto].
Defined.


(** ** A run without overlap *)

Lemma on_line_header bs line :
  non_blank line = true ->
  Stream.on_line bs line Stream.init = flowing (parseLine line) 0 0 [[]] 0 [] [].
Proof. intros H. unfold Stream.on_line. by rewrite H. Qed.

Lemma on_line_valid bs line s hs r :
  Stream.headers s = Some hs ->
  Stream.lineNumber s <> 0%nat ->
  valid_row hs line r ->
  Stream.on_line bs line s
  = let s1 := Stream.set_totalRecords (S (Stream.totalRecords s))
                (Stream.batch_push r
                   (Stream.set_lineNumber (S (Stream.lineNumber s)) s)) in
    if (bs <=? Z.of_nat (length (Stream.batch_content s1)))%Z
    then Stream.await_onBatch Stream.AwaitInLine (Stream.rl_pause s1)
    else s1.
Proof.
  intros Hh Hn (Hb & Hl & Hr). unfold Stream.on_line. rewrite Hb.
  cbn [negb Stream.lineNumber Stream.set_lineNumber Stream.headers].
  destruct (Stream.lineNumber s) as [|n]; [done|].
  cbn [Nat.eqb]. rewrite Hh. apply Nat.eqb_eq in Hl. by rewrite Hl, Hr.
Qed.

(** A valid row read by the flowing pipeline. *)
Lemma on_line_flowing bs hs line r n total arrs b calls console :
  valid_row hs line r ->
  (b < length arrs)%nat ->
  Stream.on_line bs line (flowing hs n total arrs b calls console)
  = let content := nth b arrs [] ++ [r] in
    if (bs <=? Z.of_nat (length content))%Z then
      {| Stream.headers := Some hs;
         Stream.arrays := <[b := content]> arrs; Stream.batch := b;
         Stream.lineNumber := S (S n); Stream.totalRecords := S total;
         Stream.paused := true; Stream.closed := false;
         Stream.promise := None; Stream.pending := [Stream.AwaitInLine];
         Stream.calls := calls ++ [(b, content)]; Stream.console := console |}
    else flowing hs (S n) (S total) (<[b := content]> arrs) b calls console.
Proof.
  intros Hv Hb.
  rewrite (on_line_valid bs line (flowing hs n total arrs b calls console)
             hs r eq_refl ltac:(done) Hv).
  unfold flowing. stream_eval. rewrite (nth_insert_same arrs b _ [] Hb).
  by destruct (bs <=? _)%Z.
Qed.

(** A valid row that does not fill the batch. *)
Lemma feed_row_keep bs outcome hs line r n total arrs b calls console :
  valid_row hs line r ->
  (b < length arrs)%nat ->
  (Z.of_nat (length (nth b arrs [] ++ [r])) < bs)%Z ->
  Stream.settle_calls bs outcome
    (Stream.step bs (Stream.Line line) (flowing hs n total arrs b calls console))
  = flowing hs (S n) (S total) (<[b := nth b arrs [] ++ [r]]> arrs) b calls console.
Proof.
  intros Hv Hb Hlt. cbn [Stream.step].
  rewrite (on_line_flowing bs hs line r n total arrs b calls console Hv Hb).
  cbv zeta. apply Z.leb_gt in Hlt. rewrite Hlt. reflexivity.
Qed.

(** A valid row that fills the batch, with a consumer that fulfils the
    call. *)
Lemma feed_row_full bs outcome hs line r n total arrs b calls console :
  valid_row hs line r ->
  (b < length arrs)%nat ->
  (bs <= Z.of_nat (length (nth b arrs [] ++ [r])))%Z ->
  outcome (length calls) = None ->
  Stream.settle_calls bs outcome
    (Stream.step bs (Stream.Line line) (flowing hs n total arrs b calls console))
  = flowing hs (S n) (S total)
      (<[b := nth b arrs [] ++ [r]]> arrs ++ [[]]) (length arrs)
      (calls ++ [(b, nth b arrs [] ++ [r])])
      (console ++ [LogProcessedBatch (S total)]).
Proof.
  intros Hv Hb Hle Hout. cbn [Stream.step].
  rewrite (on_line_flowing bs hs line r n total arrs b calls console Hv Hb).
  cbv zeta. apply Z.leb_le in Hle. rewrite Hle.
  unfold flowing, Stream.settle_calls, Stream.settle_next.
  stream_eval.
  cbn [app lookup list_lookup]. rewrite length_app. cbn [length].
  replace (length calls + 1 - 1)%nat with (length calls) by lia.
  rewrite Hout. cbn [delete list_delete]. by rewrite length_insert.
Qed.

(** The end of the input met by the flowing pipeline. *)
Lemma step_end_flowing bs hs n total arrs b calls console :
  Stream.step bs Stream.End (flowing hs n total arrs b calls console)
  = if (0 <? length (nth b arrs []))%nat then
      {| Stream.headers := Some hs; Stream.arrays := arrs; Stream.batch := b;
         Stream.lineNumber := S n; Stream.totalRecords := total;
         Stream.paused := true; Stream.closed := true;
         Stream.promise := None; Stream.pending := [Stream.AwaitInClose];
         Stream.calls := calls ++ [(b, nth b arrs [])];
         Stream.console := console |}
    else
      {| Stream.headers := Some hs; Stream.arrays := arrs; Stream.batch := b;
         Stream.lineNumber := S n; Stream.totalRecords := total;
         Stream.paused := true; Stream.closed := true;
         Stream.promise := Some (Ok total); Stream.pending := [];
         Stream.calls := calls;
         Stream.console := console ++ [LogParsed total] |}.
Proof. unfold flowing. stream_eval. by destruct (0 <? _)%nat. Qed.

(** The end of the input with records left in the batch, with a consumer
    that fulfils the call. *)
Lemma feed_end_flush bs outcome hs n total arrs b calls console :
  nth b arrs [] <> [] ->
  outcome (length calls) = None ->
  Stream.settle_calls bs outcome
    (Stream.step bs Stream.End (flowing hs n total arrs b calls console))
  = {| Stream.headers := Some hs; Stream.arrays := arrs; Stream.batch := b;
       Stream.lineNumber := S n; Stream.totalRecords := total;
       Stream.paused := true; Stream.closed := true;
       Stream.promise := Some (Ok total); Stream.pending := [];
       Stream.calls := calls ++ [(b, nth b arrs [])];
       Stream.console := console ++ [LogFinalBatch total; LogParsed total] |}.
Proof.
  intros Hne Hout. rewrite step_end_flowing.
  assert (E : (0 <? length (nth b arrs []))%nat = true).
  { apply Nat.ltb_lt. destruct (nth b arrs []); [done | simpl; lia]. }
  rewrite E. unfold Stream.settle_calls, Stream.settle_next.
  stream_eval.
  cbn [app lookup list_lookup]. rewrite length_app. cbn [length].
  replace (length calls + 1 - 1)%nat with (length calls) by lia.
  rewrite Hout. cbn [delete list_delete]. by rewrite <- app_assoc.
Qed.

Lemma sequential_from_flowing bs outcome line lines hs n total arrs b calls console :
  Stream.sequential_from bs outcome (line :: lines)
    (flowing hs n total arrs b calls console)
  = Stream.sequential_from bs outcome lines
      (Stream.settle_calls bs outcome
         (Stream.step bs (Stream.Line line)
            (flowing hs n total arrs b calls console))).
Proof. reflexivity. Qed.

(** The end of the input with an empty batch. *)
Lemma feed_end_empty bs outcome hs n total arrs b calls console :
  nth b arrs [] = [] ->
  let s := Stream.settle_calls bs outcome
             (Stream.step bs Stream.End (flowing hs n total arrs b calls console)) in
  Stream.calls s = calls /\ Stream.promise s = Some (Ok total) /\
  Stream.pending s = [].
Proof. intros E. rewrite step_end_flowing, E. by cbn. Qed.

Lemma sequential_header bs outcome header rows :
  non_blank header = true ->
  Stream.sequential bs outcome (header :: rows)
  = Stream.sequential_from bs outcome rows
      (flowing (parseLine header) 0 0 [[]] 0 [] []).
Proof.
  intros Hh. unfold Stream.sequential.
  change (Stream.sequential_from bs outcome (header :: rows) Stream.init)
    with (Stream.sequential_from bs outcome rows
            (Stream.settle_calls bs outcome
               (Stream.on_line bs header Stream.init))).
  by rewrite (on_line_header bs header Hh).
Qed.

(** A run without overlap, with a consumer that fulfils every call, hands
    over the batches of the records of its rows. *)
Lemma sequential_from_batches bs hs rows recs :
  (1 <= bs)%Z ->
  Forall2 (valid_row hs) rows recs ->
  forall n total arrs b calls console,
    (b < length arrs)%nat ->
    (Z.of_nat (length (nth b arrs [])) < bs)%Z ->
    let s := Stream.sequential_from bs (fun _ => None) rows
               (flowing hs n total arrs b calls console) in
    map snd (Stream.calls s) = map snd calls ++ batches bs (nth b arrs []) recs /\
    Stream.promise s = Some (Ok (total + length recs)%nat) /\
    Stream.pending s = [].
Proof.
  intros Hbs Hrows.
  induction Hrows as [|line r rows recs Hv Hrows IH];
    intros n total arrs b calls console Hb Hlen.
  - cbn [Stream.sequential_from batches length].
    rewrite Nat.add_0_r.
    destruct (nth b arrs []) as [|x cur] eqn:E.
    + destruct (feed_end_empty bs (fun _ => None) hs n total arrs b calls console E)
        as (-> & -> & ->).
      by rewrite app_nil_r.
    + rewrite feed_end_flush; [|by rewrite E|done].
      cbn [Stream.calls Stream.promise Stream.pending].
      by rewrite map_app, E.
  - rewrite sequential_from_flowing. cbn [batches].
    destruct (bs <=? Z.of_nat (length (nth b arrs [] ++ [r])))%Z eqn:Full.
    + apply Z.leb_le in Full.
      rewrite (feed_row_full bs _ hs line r) by done.
      assert (E : nth (length arrs)
                    (<[b:=nth b arrs [] ++ [r]]> arrs ++ [[]]) [] = []).
      { rewrite app_nth2; rewrite length_insert; [|lia].
        by rewrite Nat.sub_diag. }
      destruct (IH (S n) (S total)
                  (<[b:=nth b arrs [] ++ [r]]> arrs ++ [[]]) (length arrs)
                  (calls ++ [(b, nth b arrs [] ++ [r])])
                  (console ++ [LogProcessedBatch (S total)]))
        as (Hc & Hp & Hq).
      { rewrite length_app, length_insert. simpl. lia. }
      { rewrite E. simpl. lia. }
      rewrite E in Hc. rewrite Hc, Hp, Hq, map_app, <- app_assoc.
      repeat split. cbn [length]. do 2 f_equal. lia.
    + apply Z.leb_gt in Full.
      rewrite (feed_row_keep bs _ hs line r) by done.
      assert (E : nth b (<[b:=nth b arrs [] ++ [r]]> arrs) []
                  = nth b arrs [] ++ [r]) by (by apply nth_insert_same).
      destruct (IH (S n) (S total) (<[b:=nth b arrs [] ++ [r]]> arrs) b
                  calls console) as (Hc & Hp & Hq).
      { by rewrite length_insert. }
      { by rewrite E. }
      rewrite E in Hc. rewrite Hc, Hp, Hq.
      repeat split. cbn [length]. do 2 f_equal. lia.
Qed.

Lemma concat_batches bs recs : forall cur,
  concat (batches bs cur recs) = cur ++ recs.
Proof.
  induction recs as [|r recs IH]; intros cur; simpl.
  - destruct cur; simpl; by rewrite ?app_nil_r.
  - destruct (bs <=? _)%Z; simpl; rewrite IH; by rewrite <- ?app_assoc.
Qed.

Lemma batches_bounded bs recs : forall cur,
  (1 <= bs)%Z -> (Z.of_nat (length cur) < bs)%Z ->
  Forall (fun b => b <> [] /\ (Z.of_nat (length b) <= bs)%Z)
         (batches bs cur recs).
Proof.
  induction recs as [|r recs IH]; intros cur Hbs Hcur; simpl.
  - destruct cur as [|x cur]; constructor; [|constructor].
    split; [done | lia].
  - destruct (bs <=? _)%Z eqn:Full.
    + constructor; [|apply IH; simpl; lia].
      split; [by destruct cur|]. rewrite length_app in *. simpl in *. lia.
    + apply Z.leb_gt in Full. by apply IH.
Qed.

(** Without overlap, with a positive [batchSize] and a consumer that
    fulfils every call: the consumer gets the records of the valid rows in
    row order, in batches of [batchSize] and a last partial one, no batch
    empty, and the run resolves with their number. *)
Lemma sequential_batches bs header rows recs :
  (1 <= bs)%Z ->
  non_blank header = true ->
  Forall2 (valid_row (parseLine header)) rows recs ->
  let s := Stream.sequential bs (fun _ => None) (header :: rows) in
  map snd (Stream.calls s) = batches bs [] recs /\
  concat (map snd (Stream.calls s)) = recs /\
  Forall (fun n => (1 <= n)%nat /\ (Z.of_nat n <= bs)%Z) (Stream.call_sizes s) /\
  Stream.promise s = Some (Ok (length recs)).
Proof.
  intros Hbs Hh Hrows s. subst s. rewrite (sequential_header bs _ header rows Hh).
  destruct (sequential_from_batches bs _ rows recs Hbs Hrows 0 0 [[]] 0 [] [])
    as (Hc & Hp & _); [simpl; lia.. |].
  simpl in Hc. split; [done|]. split; [by rewrite Hc, concat_batches|].
  split; [|done].
  unfold Stream.call_sizes. rewrite <- (map_map snd length), Hc.
  apply Forall_map.
  eapply Forall_impl; [apply (batches_bounded bs recs []); simpl; lia|].
  intros b [Hne Hle]. split; [|done]. destruct b; [done | simpl; lia].
Qed.

(** A header and five valid rows, [batchSize] 2, no overlap and a
    consumer that fulfils every call: three calls, with the first two
    records, the next two and the last one, in row order, and the run
    resolves with 5. *)
Lemma five_rows_without_overlap header l1 l2 l3 l4 l5 r1 r2 r3 r4 r5 :
  non_blank header = true ->
  valid_row (parseLine header) l1 r1 ->
  valid_row (parseLine header) l2 r2 ->
  valid_row (parseLine header) l3 r3 ->
  valid_row (parseLine header) l4 r4 ->
  valid_row (parseLine header) l5 r5 ->
  let s := Stream.sequential 2 (fun _ => None) [header; l1; l2; l3; l4; l5] in
  map snd (Stream.calls s) = [[r1; r2]; [r3; r4]; [r5]] /\
  Stream.call_sizes s = [2; 2; 1]%nat /\
  Stream.promise s = Some (Ok 5%nat).
Proof.
  intros Hh H1 H2 H3 H4 H5.
  destruct (sequential_batches 2 header [l1; l2; l3; l4; l5] [r1; r2; r3; r4; r5])
    as (Hc & _ & _ & Hp);
    [lia | done | repeat (constructor; [assumption|]); constructor |].
  split; [exact Hc|]. split; [|exact Hp].
  unfold Stream.call_sizes. rewrite <- (map_map snd length), Hc. reflexivity.
Qed.

Lemma five_rows_without_overlap_witness :
  Stream.call_sizes (Stream.sequential 2 (fun _ => None)
                       ["a,b"; "1,x"; "2,y"; "3,z"; "4,u"; "5,v"])
  = [2; 2; 1]%nat.
Proof.
  destruct (five_rows_without_overlap "a,b" "1,x" "2,y" "3,z" "4,u" "5,v"
              (VObj false [("a", VNum (Num.Finite 1)); ("b", VStr "x")])
              (VObj false [("a", VNum (Num.Finite 2)); ("b", VStr "y")])
              (VObj false [("a", VNum (Num.Finite 3)); ("b", VStr "z")])
              (VObj false [("a", VNum (Num.Finite 4)); ("b", VStr "u")])
              (VObj false [("a", VNum (Num.Finite 5)); ("b", VStr "v")]))
    as (_ & H & _).
  1-6: by repeat split.
  exact H.
Defined.

Lemma sequential_batches_witness :
  concat (map snd (Stream.calls
            (Stream.sequential 2 (fun _ => None) ["h"; "1"; "2"; "3"])))
  = [row 1; row 2; row 3].
Proof.
  destruct (sequential_batches 2 "h" ["1"; "2"; "3"] [row 1; row 2; row 3])
    as (_ & H & _);
    [lia | done
    | repeat (constructor; [by repeat split|]); constructor
    | exact H].
Defined.

(** The ['line'] listener looks neither at [paused] nor at the calls in
    flight: a valid row that arrives while a call is in flight is pushed
    onto the array the consumer holds, and when that makes the batch
    full (again) the consumer is called with it (again). *)
Lemma line_listener_has_no_guard bs line s hs r :
  Stream.headers s = Some hs ->
  Stream.lineNumber s <> 0%nat ->
  valid_row hs line r ->
  (Stream.batch s < length (Stream.arrays s))%nat ->
  (bs <= Z.of_nat (length (Stream.batch_content s ++ [r])))%Z ->
  let s' := Stream.step bs (Stream.Line line) s in
  Stream.batch_content s' = Stream.batch_content s ++ [r] /\
  Stream.calls s' = Stream.calls s ++ [(Stream.batch s, Stream.batch_content s ++ [r])] /\
  Stream.pending s' = Stream.pending s ++ [Stream.AwaitInLine].
Proof.
  intros Hh Hn Hv Hb Hfull. cbn [Stream.step].
  rewrite (on_line_valid bs line s hs r Hh Hn Hv).
  destruct s as [h a b n t p c pr pe ca co].
  unfold Stream.batch_content in *. cbn [Stream.batch Stream.arrays] in *.
  stream_eval. rewrite (nth_insert_same a b _ [] Hb).
  apply Z.leb_le in Hfull. rewrite Hfull. cbn.
  by rewrite (nth_insert_same a b _ [] Hb).
Qed.

Lemma line_listener_has_no_guard_witness :
  Stream.line_call_in_flight
    (Stream.run 2 [Stream.Line "h"; Stream.Line "1"; Stream.Line "2"]) = true /\
  Stream.calls
    (Stream.step 2 (Stream.Line "3")
       (Stream.run 2 [Stream.Line "h"; Stream.Line "1"; Stream.Line "2"]))
  = [(0%nat, [row 1; row 2]); (0%nat, [row 1; row 2; row 3])].
Proof.
  split; [reflexivity|].
  assert (Hh : Stream.headers
                 (Stream.run 2 [Stream.Line "h"; Stream.Line "1"; Stream.Line "2"])
               = Some ["h"]) by reflexivity.
  assert (Hn : Stream.lineNumber
                 (Stream.run 2 [Stream.Line "h"; Stream.Line "1"; Stream.Line "2"])
               <> 0%nat) by (vm_compute; discriminate).
  assert (Hv : valid_row ["h"] "3" (row 3)) by (repeat split; reflexivity).
  assert (Hb : (Stream.batch
                  (Stream.run 2 [Stream.Line "h"; Stream.Line "1"; Stream.Line "2"])
                < length (Stream.arrays
                    (Stream.run 2 [Stream.Line "h"; Stream.Line "1"; Stream.Line "2"])))%nat)
    by (vm_compute; lia).
  assert (Hf : (2 <= Z.of_nat (length (Stream.batch_content
                    (Stream.run 2 [Stream.Line "h"; Stream.Line "1"; Stream.Line "2"])
                  ++ [row 3])))%Z) by (vm_compute; discriminate).
  destruct (line_listener_has_no_guard 2 "3" _ ["h"] (row 3) Hh Hn Hv Hb Hf)
    as (_ & H & _).
  rewrite H. reflexivity.
Defined.

(** * Further properties *)

(** ** The line splitter on joined, quoted and padded lines *)

Lemma split_fields_join b a : forall q acc,
  quote_parity q a = false ->
  split_fields q acc (a +:+ String comma b)
  = split_fields q acc a ++ split_fields false EmptyString b.
Proof.
  induction a as [|c r IH]; intros q acc Hq; simpl in Hq.
  - subst q. reflexivity.
  - rewrite append_cons. simpl. destruct (Ascii.eqb c quote); [by apply IH|].
    destruct q; [by apply IH|].
    destruct (Ascii.eqb c comma); [|by apply IH].
    simpl. f_equal. by apply IH.
Qed.

(** X1.  Two lines joined by a comma split into the fields of the first
    followed by the fields of the second, provided the first closes the
    quotes it opens. *)
Theorem parseLine_join a b :
  quote_parity false a = false ->
  parseLine (a +:+ String comma b) = parseLine a ++ parseLine b.
Proof.
  intros H. rewrite !parseLine_split_fields. by apply split_fields_join.
Qed.

Lemma parseLine_join_witness :
  parseLine ((String quote "x,y" +:+ String quote "") +:+ String comma "z, w")
  = parseLine (String quote "x,y" +:+ String quote "") ++ parseLine "z, w".
Proof.
  exact (parseLine_join (String quote "x,y" +:+ String quote "") "z, w" eq_refl).
Defined.

Lemma split_fields_quoted t : forall acc,
  Str.occurs quote t = false ->
  split_fields true acc t = [Str.trim (acc +:+ t)] /\
  split_fields true acc (t +:+ String quote EmptyString) = [Str.trim (acc +:+ t)].
Proof.
  induction t as [|c r IH]; intros acc H; cbn [Str.occurs] in H.
  - rewrite append_empty_r. by split.
  - apply orb_false_iff in H as [Hc Hr]. rewrite append_cons. simpl.
    rewrite Ascii.eqb_sym, Hc.
    destruct (IH (Str.push_char acc c) Hr) as [E1 E2].
    by rewrite E1, E2, push_char_append.
Qed.

(** X2.  A field in quotes is one field whatever commas it holds, whether the
    closing quote is there or not; the quotes are dropped and the text is
    trimmed all the same. *)
Theorem parseLine_quoted t :
  Str.occurs quote t = false ->
  parseLine (String quote (t +:+ String quote EmptyString)) = [Str.trim t] /\
  parseLine (String quote t) = [Str.trim t].
Proof.
  intros H. rewrite !parseLine_split_fields. simpl.
  destruct (split_fields_quoted t EmptyString H) as [E1 E2]. by rewrite E1, E2.
Qed.

Lemma parseLine_quoted_witness :
  parseLine (String quote (" a,b , c " +:+ String quote EmptyString)) = ["a,b , c"] /\
  parseLine (String quote " a,b , c ") = ["a,b , c"].
Proof. exact (parseLine_quoted " a,b , c " eq_refl). Defined.

Lemma split_fields_plain line : forall acc,
  Str.occurs quote line = false ->
  split_fields false acc line = map Str.trim (Str.split_acc comma acc line).
Proof.
  induction line as [|c r IH]; intros acc H; cbn [Str.occurs] in H; [done|].
  apply orb_false_iff in H as [Hc Hr]. simpl.
  rewrite Ascii.eqb_sym, Hc.
  destruct (Ascii.eqb c comma); simpl; by rewrite IH.
Qed.

(** X3.  A line without quotes splits at its commas, each piece trimmed. *)
Theorem parseLine_plain line :
  Str.occurs quote line = false ->
  parseLine line = map Str.trim (Str.split comma line).
Proof.
  intros H. rewrite parseLine_split_fields. by apply split_fields_plain.
Qed.

Lemma parseLine_plain_witness :
  parseLine " a, b ,,c" = map Str.trim (Str.split comma " a, b ,,c").
Proof. exact (parseLine_plain " a, b ,,c" eq_refl). Defined.

Lemma trimEnd_push_ws s c :
  Str.is_ws c = true -> Str.trimEnd (Str.push_char s c) = Str.trimEnd s.
Proof.
  intros W. unfold Str.push_char. induction s as [|d r IH].
  - simpl. by rewrite W.
  - rewrite append_cons. simpl. by rewrite IH.
Qed.

Lemma trimStart_push s c :
  Str.trimStart (Str.push_char s c) = Str.push_char (Str.trimStart s) c \/
  (Str.trimStart s = EmptyString /\
   Str.trimStart (Str.push_char s c) = Str.trimStart (String c EmptyString)).
Proof.
  unfold Str.push_char. induction s as [|d r IH].
  - by right.
  - rewrite append_cons. simpl. destruct (Str.is_ws d); [exact IH | by left].
Qed.

Lemma trim_push_ws s c :
  Str.is_ws c = true -> Str.trim (Str.push_char s c) = Str.trim s.
Proof.
  intros W. unfold Str.trim.
  destruct (trimStart_push s c) as [->|[E ->]].
  - by apply trimEnd_push_ws.
  - rewrite E. simpl. by rewrite W.
Qed.

Lemma ws_is_no_delimiter c :
  Str.is_ws c = true -> Ascii.eqb c quote = false /\ Ascii.eqb c comma = false.
Proof. destruct c as [[] [] [] [] [] [] [] []]; vm_compute; intros H; by try discriminate. Qed.

Lemma split_fields_trailing_ws c line : forall q acc,
  Str.is_ws c = true ->
  split_fields q acc (line +:+ String c EmptyString) = split_fields q acc line.
Proof.
  intros q acc W. destruct (ws_is_no_delimiter c W) as [Hq Hc].
  revert q acc. induction line as [|d r IH]; intros q acc.
  - simpl. rewrite Hq, Hc. destruct q; simpl; by rewrite trim_push_ws.
  - rewrite append_cons. simpl. destruct (Ascii.eqb d quote); [apply IH|].
    destruct q; [apply IH|].
    destruct (Ascii.eqb d comma); by rewrite IH.
Qed.

Lemma trim_cons_ws c s : Str.is_ws c = true -> Str.trim (String c s) = Str.trim s.
Proof. intros W. unfold Str.trim. simpl. by rewrite W. Qed.

Lemma split_fields_leading_ws c line : forall q acc,
  Str.is_ws c = true ->
  split_fields q (String c acc) line = split_fields q acc line.
Proof.
  intros q acc W. revert q acc.
  induction line as [|d r IH]; intros q acc; simpl.
  - by rewrite trim_cons_ws.
  - destruct (Ascii.eqb d quote); [apply IH|].
    destruct q; [apply (IH true)|].
    destruct (Ascii.eqb d comma); [by rewrite trim_cons_ws | apply (IH false)].
Qed.

(** X4.  White space in front of a line or at its end does not change its
    fields; in particular the carriage return that [split] on newline
    leaves at the end of the lines of a CRLF file is harmless. *)
Theorem parseLine_padding c line :
  Str.is_ws c = true ->
  parseLine (String c line) = parseLine line /\
  parseLine (line +:+ String c EmptyString) = parseLine line.
Proof.
  intros W. destruct (ws_is_no_delimiter c W) as [Hq Hc].
  rewrite !parseLine_split_fields. split.
  - simpl. rewrite Hq, Hc.
    apply (split_fields_leading_ws c line false EmptyString W).
  - by apply split_fields_trailing_ws.
Qed.

Lemma parseLine_padding_witness :
  parseLine ("a,b" +:+ String (ascii_of_nat 13) EmptyString) = parseLine "a,b".
Proof. exact (proj2 (parseLine_padding (ascii_of_nat 13) "a,b" eq_refl)). Defined.

(** ** Paths through built and merged objects *)

Lemma get_set_same {A} (ps : list (string * A)) k v : get (set ps k v) k = Some v.
Proof.
  induction ps as [|[k' v'] r IH]; simpl.
  - by rewrite String.eqb_refl.
  - destruct (String.eqb k' k) eqn:E; simpl; by rewrite ?String.eqb_refl, ?E.
Qed.

Lemma get_set_other {A} (ps : list (string * A)) k v b :
  String.eqb k b = false -> get (set ps k v) b = get ps b.
Proof.
  intros Hkb. induction ps as [|[k' v'] r IH]; simpl.
  - by rewrite Hkb.
  - destruct (String.eqb k' k) eqn:E; simpl.
    + apply String.eqb_eq in E as ->. by rewrite Hkb.
    + by rewrite IH.
Qed.

Lemma get_path_nest rest : forall k v,
  get_path (nest k rest v) (map Str.trim (k :: rest)) = Some v.
Proof.
  induction rest as [|k' rest' IH]; intros k v; simpl.
  - by rewrite String.eqb_refl.
  - rewrite String.eqb_refl. apply IH.
Qed.

(** X5.  For a key whose segments are plain keys,
    [createNestedObject] builds one chain: reading along the trimmed
    segments of the key gives the value back, the chain has the first
    segment as its only key, and a key without a dot gives the flat
    one-key object. *)
Theorem createNestedObject_lookup key v :
  forallb plain_key (map Str.trim (Str.split dot key)) = true ->
  get_path (createNestedObject key v) (map Str.trim (Str.split dot key)) = Some v /\
  (exists k, keys (createNestedObject key v) = {[k]}) /\
  (Str.occurs dot key = false ->
   createNestedObject key v = VObj false [(Str.trim key, v)]).
Proof.
  intros _. unfold createNestedObject, Str.split.
  destruct (split_acc_cons dot key EmptyString) as (k & rest & E). rewrite E.
  split; [apply get_path_nest|]. split.
  - exists (Str.trim k). destruct rest; simpl; set_solver.
  - intros H. revert E.
    assert (G : forall cur, Str.split_acc dot cur key = [cur +:+ key]).
    { clear k rest. induction key as [|c r IH]; intros cur.
      - by rewrite append_empty_r.
      - cbn [Str.occurs] in H. apply orb_false_iff in H as [Hc Hr]. simpl.
        rewrite Ascii.eqb_sym, Hc, (IH Hr). by rewrite push_char_append. }
    rewrite G. by intros [= <- <-].
Qed.

Lemma createNestedObject_lookup_witness :
  createNestedObject " age " (VStr "x") = VObj false [("age", VStr "x")].
Proof.
  exact (proj2 (proj2 (createNestedObject_lookup " age " (VStr "x") eq_refl))
               eq_refl).
Defined.

Lemma mergeDeep_keeps_object l : forall a tp r,
  mergeDeep_entries (VObj a tp) l = Ok r -> exists rp, r = VObj a rp.
Proof.
  induction l as [|[key sv] rest IH]; intros a tp r; simpl.
  - intros [= <-]. eauto.
  - destruct (is_plain_object sv).
    + destruct (get tp key) as [old|].
      * destruct (truthy old).
        -- destruct (mergeDeep old sv); simpl; [apply IH | done].
        -- destruct (mergeDeep empty_object sv); simpl; [apply IH | done].
      * destruct (mergeDeep empty_object sv); simpl; [apply IH | done].
    + apply IH.
Qed.

(** A target that is no object cannot take a chain. *)
Lemma mergeDeep_primitive_nest old k rest v :
  match old with VObj _ _ => False | _ => True end ->
  is_plain_object v = false ->
  mergeDeep old (nest k rest v) = Throw TypeError.
Proof.
  intros Ho Hv. destruct rest as [|k' rest']; simpl nest;
    rewrite mergeDeep_object; simpl.
  - rewrite Hv. by destruct old.
  - rewrite nest_is_plain_object. by destruct old.
Qed.

(** The three ways a chain of two segments or more meets the target. *)
Lemma mergeDeep_nest_step a tp k k' rest' v :
  mergeDeep (VObj a tp) (nest k (k' :: rest') v)
  = match get tp (Str.trim k) with
    | Some old =>
        if truthy old then
          do sub <- mergeDeep old (nest k' rest' v) ;
          Ok (VObj a (set tp (Str.trim k) sub))
        else
          do sub <- mergeDeep empty_object (nest k' rest' v) ;
          Ok (VObj a (set tp (Str.trim k) sub))
    | None =>
        do sub <- mergeDeep empty_object (nest k' rest' v) ;
        Ok (VObj a (set tp (Str.trim k) sub))
    end.
Proof.
  simpl nest. rewrite mergeDeep_object. simpl. rewrite nest_is_plain_object.
  destruct (get tp (Str.trim k)) as [old|].
  - destruct (truthy old).
    + by destruct (mergeDeep old (nest k' rest' v)).
    + destruct (mergeDeep empty_object (nest k' rest' v)); simpl;
        by rewrite ?set_set.
  - destruct (mergeDeep empty_object (nest k' rest' v)); simpl;
      by rewrite ?set_set.
Qed.

Lemma truthy_object_or_primitive old :
  (exists a c, old = VObj a c) \/ match old with VObj _ _ => False | _ => True end.
Proof. destruct old; eauto. Qed.

Lemma mergeDeep_nest_lookup rest : forall k v a tp r,
  is_plain_object v = false ->
  mergeDeep (VObj a tp) (nest k rest v) = Ok r ->
  get_path r (map Str.trim (k :: rest)) = Some v.
Proof.
  induction rest as [|k' rest' IH]; intros k v a tp r Hv.
  - simpl nest. rewrite mergeDeep_assigns by done. intros [= <-].
    simpl. by rewrite get_set_same.
  - rewrite mergeDeep_nest_step.
    assert (fresh : forall sub,
      mergeDeep empty_object (nest k' rest' v) = Ok sub ->
      get_path (VObj a (set tp (Str.trim k) sub))
        (map Str.trim (k :: k' :: rest')) = Some v).
    { intros sub Hs. cbn [map get_path getProp]. rewrite get_set_same.
      by apply (IH k' v false [] sub Hv). }
    destruct (get tp (Str.trim k)) as [old|].
    + destruct (truthy old).
      * destruct (truthy_object_or_primitive old) as [(a' & c & ->)|Hp].
        -- destruct (mergeDeep (VObj a' c) (nest k' rest' v)) as [sub|] eqn:M;
             simpl; [|done].
           intros [= <-]. cbn [map get_path getProp]. rewrite get_set_same.
           by apply (IH k' v a' c sub Hv).
        -- by rewrite mergeDeep_primitive_nest.
      * destruct (mergeDeep empty_object (nest k' rest' v)) as [sub|] eqn:M;
          simpl; [|done].
        intros [= <-]. by apply fresh.
    + destruct (mergeDeep empty_object (nest k' rest' v)) as [sub|] eqn:M;
        simpl; [|done].
      intros [= <-]. by apply fresh.
Qed.

Lemma get_path_primitive old q :
  match old with VObj _ _ => False | _ => True end ->
  q <> [] -> get_path old q = None.
Proof. intros Ho Hq. destruct q; [done|]. by destruct old. Qed.

Lemma falsy_is_primitive old :
  truthy old = false -> match old with VObj _ _ => False | _ => True end.
Proof. by destruct old. Qed.

Lemma diverges_cons a p b q :
  diverges (a :: p) (b :: q) = if String.eqb a b then diverges p q else true.
Proof. reflexivity. Qed.

Lemma diverges_nonempty p q : diverges p q = true -> q <> [].
Proof. destruct p, q; simpl; congruence. Qed.

Lemma mergeDeep_nest_siblings rest : forall k v a tp r q,
  is_plain_object v = false ->
  mergeDeep (VObj a tp) (nest k rest v) = Ok r ->
  diverges (map Str.trim (k :: rest)) q = true ->
  get_path r q = get_path (VObj a tp) q.
Proof.
  induction rest as [|k' rest' IH]; intros k v a tp r q Hv.
  - simpl nest. rewrite mergeDeep_assigns by done. intros [= <-].
    destruct q as [|b q']; [done|]. simpl.
    destruct (String.eqb (Str.trim k) b) eqn:E; [by destruct q'|].
    intros _. by rewrite get_set_other.
  - rewrite mergeDeep_nest_step. intros Hm.
    destruct q as [|b q']; [done|].
    change (map Str.trim (k :: k' :: rest'))
      with (Str.trim k :: map Str.trim (k' :: rest')).
    rewrite diverges_cons.
    destruct (String.eqb (Str.trim k) b) eqn:E.
    + apply String.eqb_eq in E as <-. intros Hd.
      pose proof (diverges_nonempty _ _ Hd) as Hq'.
      cbn [get_path getProp].
      assert (fresh : forall sub old',
        mergeDeep empty_object (nest k' rest' v) = Ok sub ->
        get_path old' q' = None ->
        get_path sub q' = get_path old' q').
      { intros sub old' Hs Hn. rewrite Hn.
        rewrite (IH k' v false [] sub q' Hv Hs Hd). by destruct q'. }
      destruct (get tp (Str.trim k)) as [old|] eqn:G.
      * destruct (truthy old) eqn:T.
        -- destruct (truthy_object_or_primitive old) as [(a' & c & ->)|Hp].
           ++ destruct (mergeDeep (VObj a' c) (nest k' rest' v)) as [sub|] eqn:M;
                simpl in Hm; [|done].
              injection Hm as <-. cbn [get_path getProp].
              rewrite get_set_same.
              by apply (IH k' v a' c sub q' Hv M).
           ++ by rewrite mergeDeep_primitive_nest in Hm.
        -- destruct (mergeDeep empty_object (nest k' rest' v)) as [sub|] eqn:M;
             simpl in Hm; [|done].
           injection Hm as <-. cbn [get_path getProp]. rewrite get_set_same.
           apply fresh; [done|].
           apply get_path_primitive; [by apply falsy_is_primitive | done].
      * destruct (mergeDeep empty_object (nest k' rest' v)) as [sub|] eqn:M;
          simpl in Hm; [|done].
        injection Hm as <-. cbn [get_path getProp]. rewrite get_set_same.
        rewrite (IH k' v false [] sub q' Hv M Hd). by destruct q'.
    + intros _. cbn [get_path getProp].
      assert (Hr : exists X, r = VObj a (set tp (Str.trim k) X)).
      { destruct (get tp (Str.trim k)) as [old|];
          [destruct (truthy old)|];
          match type of Hm with
          | (do sub <- ?m ; _) = _ => destruct m; simpl in Hm; [|done]
          end; injection Hm as <-; eauto. }
      destruct Hr as [X ->]. cbn [getProp]. by rewrite get_set_other.
Qed.

(** X6.  Merging the chain of a dotted path of plain keys into an object:
    afterwards the
    path leads to the value, and every path that parts ways with it
    leads where it led before, so that no sibling key is lost at any
    depth. *)
Theorem mergeDeep_path_and_siblings a tp k rest v r :
  forallb plain_key (map Str.trim (k :: rest)) = true ->
  is_plain_object v = false ->
  mergeDeep (VObj a tp) (nest k rest v) = Ok r ->
  get_path r (map Str.trim (k :: rest)) = Some v /\
  (forall q, diverges (map Str.trim (k :: rest)) q = true ->
             get_path r q = get_path (VObj a tp) q).
Proof.
  intros _ Hv Hm. split.
  - by eapply mergeDeep_nest_lookup.
  - intros q Hd. by eapply mergeDeep_nest_siblings.
Qed.

Lemma mergeDeep_path_and_siblings_witness :
  get_path (VObj false [("name", VObj false [("first", VStr "A"); ("last", VStr "B")])])
           ["name"; "last"] = Some (VStr "B") /\
  get_path (VObj false [("name", VObj false [("first", VStr "A"); ("last", VStr "B")])])
           ["name"; "first"]
  = get_path (VObj false [("name", VObj false [("first", VStr "A")])]) ["name"; "first"].
Proof.
  destruct (mergeDeep_path_and_siblings false
              [("name", VObj false [("first", VStr "A")])]
              "name" ["last"] (VStr "B")
              (VObj false [("name", VObj false [("first", VStr "A"); ("last", VStr "B")])])
              eq_refl eq_refl eq_refl) as [H1 H2].
  split; [exact H1 | exact (H2 ["name"; "first"] eq_refl)].
Defined.

(** ** When the deep merge of a chain fails, and merging twice *)

Lemma mergeDeep_nest_outcome rest : forall k v a tp,
  is_plain_object v = false ->
  if runs_into_scalar (VObj a tp) k rest
  then mergeDeep (VObj a tp) (nest k rest v) = Throw TypeError
  else exists rp, mergeDeep (VObj a tp) (nest k rest v) = Ok (VObj a rp).
Proof.
  induction rest as [|k' rest' IH]; intros k v a tp Hv.
  - cbn [runs_into_scalar nest]. rewrite mergeDeep_assigns by done. eauto.
  - rewrite mergeDeep_nest_step. cbn [runs_into_scalar getProp].
    assert (fresh : exists rp,
      (do sub <- mergeDeep empty_object (nest k' rest' v) ;
       Ok (VObj a (set tp (Str.trim k) sub))) = Ok (VObj a rp)).
    { rewrite mergeDeep_empty_nest by done. simpl. eauto. }
    destruct (get tp (Str.trim k)) as [old|]; [|exact fresh].
    destruct (truthy old); [|exact fresh]. simpl.
    destruct (truthy_object_or_primitive old) as [(a' & c & ->)|Hp].
    + specialize (IH k' v a' c Hv).
      destruct (runs_into_scalar (VObj a' c) k' rest').
      * by rewrite IH.
      * destruct IH as [rp ->]. simpl. eauto.
    + rewrite mergeDeep_primitive_nest by done.
      by destruct old.
Qed.

(** X7.  The deep merge of the chain of a path of plain keys into an
    object fails exactly when the path
    runs, before its last segment, into a truthy value of the target that
    is not an object; it then throws a TypeError, and otherwise it returns
    an object. *)
Theorem mergeDeep_chain_fails_on_scalar a tp k rest v :
  forallb plain_key (map Str.trim (k :: rest)) = true ->
  is_plain_object v = false ->
  (runs_into_scalar (VObj a tp) k rest = true <->
   mergeDeep (VObj a tp) (nest k rest v) = Throw TypeError) /\
  (runs_into_scalar (VObj a tp) k rest = false <->
   exists rp, mergeDeep (VObj a tp) (nest k rest v) = Ok (VObj a rp)).
Proof.
  intros _ Hv. pose proof (mergeDeep_nest_outcome rest k v a tp Hv) as H.
  destruct (runs_into_scalar (VObj a tp) k rest).
  - rewrite H. split; split; try done. by intros [rp ?].
  - destruct H as [rp ->]. split; split; try done. eauto.
Qed.

Lemma mergeDeep_chain_fails_on_scalar_witness :
  mergeDeep (VObj false [("a", VNum (Num.Finite 5))]) (nest "a" ["b"] (VStr "x"))
  = Throw TypeError.
Proof.
  exact (proj1 (proj1 (mergeDeep_chain_fails_on_scalar false
                         [("a", VNum (Num.Finite 5))] "a" ["b"] (VStr "x")
                         eq_refl eq_refl))
               eq_refl).
Defined.

Lemma mergeDeep_nest_twice rest : forall k v1 v2 a tp r1,
  is_plain_object v1 = false -> is_plain_object v2 = false ->
  mergeDeep (VObj a tp) (nest k rest v1) = Ok r1 ->
  mergeDeep r1 (nest k rest v2) = mergeDeep (VObj a tp) (nest k rest v2).
Proof.
  induction rest as [|k' rest' IH]; intros k v1 v2 a tp r1 H1 H2.
  - simpl nest. rewrite !mergeDeep_assigns by done. intros [= <-].
    rewrite mergeDeep_assigns by done. by rewrite set_set.
  - rewrite !mergeDeep_nest_step.
    assert (step : forall base sub1,
      (exists a' c, base = VObj a' c) ->
      mergeDeep base (nest k' rest' v1) = Ok sub1 ->
      mergeDeep (VObj a (set tp (Str.trim k) sub1)) (nest k (k' :: rest') v2)
      = (do sub <- mergeDeep base (nest k' rest' v2) ;
         Ok (VObj a (set tp (Str.trim k) sub)))).
    { intros base sub1 (a' & c & ->) M.
      rewrite mergeDeep_nest_step, get_set_same.
      assert (Hs : exists sp, sub1 = VObj a' sp).
      { pose proof (mergeDeep_nest_outcome rest' k' v1 a' c H1) as HH.
        destruct (runs_into_scalar (VObj a' c) k' rest').
        - rewrite M in HH. done.
        - destruct HH as [sp E]. rewrite M in E. injection E as ->. eauto. }
      destruct Hs as [sp ->]. cbn [truthy].
      rewrite (IH k' v1 v2 a' c (VObj a' sp) H1 H2 M).
      destruct (mergeDeep (VObj a' c) (nest k' rest' v2)); simpl;
        by rewrite ?set_set. }
    destruct (get tp (Str.trim k)) as [old|].
    + destruct (truthy old).
      * destruct (truthy_object_or_primitive old) as [(a' & c & ->)|Hp].
        -- destruct (mergeDeep (VObj a' c) (nest k' rest' v1)) as [sub1|] eqn:M;
             simpl; [|done].
           intros [= <-]. apply step; eauto.
        -- by rewrite mergeDeep_primitive_nest.
      * destruct (mergeDeep empty_object (nest k' rest' v1)) as [sub1|] eqn:M;
          simpl; [|done].
        intros [= <-]. apply step; [by exists false, []|done].
    + destruct (mergeDeep empty_object (nest k' rest' v1)) as [sub1|] eqn:M;
        simpl; [|done].
      intros [= <-]. apply step; [by exists false, []|done].
Qed.

(** X8.  Merging two chains of the same path one after the other gives what
    merging the second alone gives: the last write wins and the first
    leaves no trace. *)
Theorem mergeDeep_last_write_wins a tp k rest v1 v2 r1 :
  is_plain_object v1 = false -> is_plain_object v2 = false ->
  mergeDeep (VObj a tp) (nest k rest v1) = Ok r1 ->
  mergeDeep r1 (nest k rest v2) = mergeDeep (VObj a tp) (nest k rest v2).
Proof. apply mergeDeep_nest_twice. Qed.

Lemma mergeDeep_last_write_wins_witness :
  mergeDeep (VObj false [("a", VObj false [("b", VStr "1")])]) (nest "a" ["b"] (VStr "2"))
  = mergeDeep (VObj false []) (nest "a" ["b"] (VStr "2")).
Proof.
  exact (mergeDeep_last_write_wins false [] "a" ["b"] (VStr "1") (VStr "2")
           (VObj false [("a", VObj false [("b", VStr "1")])])
           eq_refl eq_refl eq_refl).
Defined.

(** ** Rows always materialize under well-nested headers *)

Lemma strict_prefix_app pre c p :
  strict_prefix (pre ++ c) (pre ++ p) = strict_prefix c p.
Proof.
  induction pre as [|a pre IH]; [done|]. simpl. by rewrite String.eqb_refl.
Qed.

Lemma strict_prefix_spec p : forall q,
  strict_prefix p q = true <-> exists k rest, q = p ++ k :: rest.
Proof.
  induction p as [|a p IH]; intros [|b q]; simpl.
  - split; [done|]. by intros (k & rest & H).
  - split; [eauto | done].
  - split; [done|]. by intros (k & rest & H).
  - rewrite andb_true_iff, String.eqb_eq, IH. split.
    + intros [-> (k & rest & ->)]. eauto.
    + intros (k & rest & [= -> ->]). eauto.
Qed.

Lemma paths_compare p : forall q,
  diverges p q = true \/ q = p \/ strict_prefix q p = true \/ strict_prefix p q = true.
Proof.
  induction p as [|a p IH]; intros [|b q]; simpl.
  - right. by left.
  - by do 3 right.
  - right. right. by left.
  - destruct (String.eqb a b) eqn:E; [|by left].
    apply String.eqb_eq in E as ->. rewrite String.eqb_refl. simpl.
    destruct (IH q) as [H|[->|[H|H]]]; auto.
Qed.

Lemma get_path_app t p : forall q,
  get_path t (p ++ q) = match get_path t p with
                        | Some y => get_path y q
                        | None => None
                        end.
Proof.
  revert t. induction p as [|a p IH]; intros t q; [done|]. simpl.
  destruct (getProp t a); [apply IH | done].
Qed.

Lemma runs_into_scalar_well_nested rest : forall t k pre paths,
  leaves_in pre t paths ->
  Forall (fun c => strict_prefix c (pre ++ map Str.trim (k :: rest)) = false) paths ->
  runs_into_scalar t k rest = false.
Proof.
  induction rest as [|k' rest' IH]; intros t k pre paths Hl Hp; [done|].
  cbn [runs_into_scalar].
  destruct (getProp t (Str.trim k)) as [old|] eqn:G; [|done].
  destruct (truthy old); [|done]. simpl.
  destruct (truthy_object_or_primitive old) as [(a' & c & ->)|Hprim].
  - apply (IH _ k' (pre ++ [Str.trim k]) paths).
    + intros q x Hq Hx. rewrite <- app_assoc.
      apply (Hl ([Str.trim k] ++ q) x); [|done].
      simpl. by rewrite G.
    + by rewrite <- app_assoc.
  - exfalso.
    assert (Hin : In (pre ++ [Str.trim k]) paths).
    { apply (Hl [Str.trim k] old); [|done]. simpl. by rewrite G. }
    rewrite List.Forall_forall in Hp. specialize (Hp _ Hin).
    rewrite strict_prefix_app in Hp. simpl in Hp.
    by rewrite String.eqb_refl in Hp.
Qed.

Lemma leaves_in_merged a tp k rest v r paths :
  is_scalar v = true ->
  mergeDeep (VObj a tp) (nest k rest v) = Ok r ->
  leaves_in [] (VObj a tp) paths ->
  leaves_in [] r (map Str.trim (k :: rest) :: paths).
Proof.
  intros Hs Hm Hl q x Hq Hx. simpl.
  destruct (scalar_is_leaf v Hs) as [_ Hv].
  pose proof (mergeDeep_nest_lookup rest k v a tp r Hv Hm) as Hp.
  destruct (paths_compare (map Str.trim (k :: rest)) q) as [H|[->|[H|H]]].
  - right. apply (Hl q x); [|done].
    by rewrite <- (mergeDeep_nest_siblings rest k v a tp r q Hv Hm H).
  - by left.
  - apply strict_prefix_spec in H as (b & more & E).
    rewrite E, get_path_app, Hq in Hp. simpl in Hp.
    by destruct x.
  - apply strict_prefix_spec in H as (b & more & ->).
    rewrite get_path_app, Hp in Hq. simpl in Hq.
    by destruct v.
Qed.

Lemma buildRecord_from_well_nested headers : forall vals a tp seen,
  leaves_in [] (VObj a tp) seen ->
  well_nested_from seen headers = true ->
  (length headers <= length vals)%nat ->
  exists rp, buildRecord_from (VObj a tp) headers vals = Ok (VObj a rp).
Proof.
  induction headers as [|h hs IH]; intros vals a tp seen Hl Hw Hlen.
  - simpl. eauto.
  - destruct vals as [|v vals]; [simpl in Hlen; lia|].
    cbn [well_nested_from] in Hw. apply andb_true_iff in Hw as [Hh Hw].
    cbn [buildRecord_from]. unfold createNestedObject, header_path in *.
    unfold Str.split in *.
    destruct (split_acc_cons dot (Str.trim h) EmptyString) as (k & rest & E).
    rewrite E in *.
    pose proof (coerce_is_scalar (Str.trim v)) as Hs.
    assert (Hv : is_plain_object (coerce (Str.trim v)) = false)
      by (by destruct (coerce (Str.trim v))).
    pose proof (mergeDeep_nest_outcome rest k (coerce (Str.trim v)) a tp Hv) as Ho.
    rewrite (runs_into_scalar_well_nested rest (VObj a tp) k [] seen) in Ho.
    + destruct Ho as [rp Ho]. rewrite Ho. simpl.
      apply (IH vals a rp (map Str.trim (k :: rest) :: seen)).
      * by eapply leaves_in_merged.
      * done.
      * simpl in Hlen. lia.
    + done.
    + simpl. apply List.Forall_forall. intros c Hc.
      rewrite forallb_forall in Hh. specialize (Hh c Hc).
      by apply negb_true_iff in Hh.
Qed.

Lemma buildRecord_materializes headers vals :
  well_nested headers = true ->
  (length headers <= length vals)%nat ->
  exists rp, buildRecord headers vals = Ok (VObj false rp).
Proof.
  intros Hw Hlen. apply (buildRecord_from_well_nested headers vals false [] []);
    [|done|done].
  intros q x Hq Hx. destruct q; simpl in Hq; [|done].
  injection Hq as <-. done.
Qed.

(** X9.  When the segments of the headers are plain keys and
    no header extends the path of a header before it, every row
    that has a value for every header materializes: the merge never
    meets a scalar where it needs a container. *)
Theorem buildRecord_well_nested headers vals :
  plain_headers headers = true ->
  well_nested headers = true ->
  (length headers <= length vals)%nat ->
  exists rp, buildRecord headers vals = Ok (VObj false rp).
Proof. intros _. apply buildRecord_materializes. Qed.

Lemma buildRecord_well_nested_witness :
  exists rp, buildRecord ["a.b"; "a.c"; "d"] ["5"; "x"; ""] = Ok (VObj false rp).
Proof.
  apply (buildRecord_well_nested ["a.b"; "a.c"; "d"] ["5"; "x"; ""]);
    [reflexivity | reflexivity | simpl; lia].
Defined.

(** ** The whole-file loader *)

Lemma buildRecord_from_throws headers : forall vals a tp e,
  buildRecord_from (VObj a tp) headers vals = Throw e -> e = TypeError.
Proof.
  induction headers as [|h hs IH]; intros vals a tp e; [done|].
  cbn [buildRecord_from]. destruct vals as [|v vals]; [by intros [= <-]|].
  unfold createNestedObject, Str.split.
  destruct (split_acc_cons dot (Str.trim h) EmptyString) as (k & rest & ->).
  assert (Hv : is_plain_object (coerce (Str.trim v)) = false)
    by (pose proof (coerce_is_scalar (Str.trim v)); by destruct (coerce (Str.trim v))).
  pose proof (mergeDeep_nest_outcome rest k (coerce (Str.trim v)) a tp Hv) as Ho.
  destruct (runs_into_scalar (VObj a tp) k rest).
  - rewrite Ho. by intros [= <-].
  - destruct Ho as [rp ->]. simpl. apply IH.
Qed.

Lemma parse_rows_throws hs rows : forall i recs out e,
  parse_rows hs i rows recs = (out, Throw e) -> e = TypeError.
Proof.
  induction rows as [|line rows IH]; intros i recs out e; [done|]. simpl.
  destruct (negb _).
  - destruct (parse_rows hs (S i) rows recs) as [o r] eqn:E.
    intros [= _ ->]. by eapply IH.
  - destruct (buildRecord hs (parseLine line)) as [record|e'] eqn:B.
    + apply IH.
    + intros [= _ <-]. by eapply buildRecord_from_throws.
Qed.

Lemma parse_rows_well_nested hs rows : forall i recs,
  well_nested hs = true ->
  exists out records, parse_rows hs i rows recs = (out, Ok records).
Proof.
  intros i recs Hw. revert i recs.
  induction rows as [|line rows IH]; intros i recs; simpl; [eauto|].
  destruct (length (parseLine line) =? length hs)%nat eqn:E; simpl.
  - apply Nat.eqb_eq in E.
    destruct (buildRecord_materializes hs (parseLine line) Hw) as [rp ->]; [lia|].
    apply IH.
  - destruct (IH (S i) recs) as (out & records & ->). eauto.
Qed.

Lemma filter_nil_Forall (f : string -> bool) l :
  List.filter f l = [] <-> Forall (fun x => f x = false) l.
Proof.
  induction l as [|x l IH]; simpl.
  - split; [constructor | done].
  - destruct (f x) eqn:E.
    + split; [done|]. inversion_clear 1. congruence.
    + rewrite IH. split; [by constructor | by inversion_clear 1].
Qed.

(** X10.  The loader fails with what reading the file throws; once the
    file is read, it fails with the empty-file error exactly when the file
    has no non-blank line; when the segments of the headers are plain
    keys, its only other failure is the TypeError of a row, which cannot
    happen when the header is well nested; a file with a header and
    nothing else gives no record and no error. *)
Theorem parse_failures read :
  (forall e, read = Throw e -> parse_file read = ([ErrorParsingFile], Throw e)) /\
  (forall content, read = Ok content ->
     (snd (parse_file read) = Throw EmptyFile <->
      Forall (fun l => non_blank l = false) (Str.split newline content)) /\
     (forall header rows,
        List.filter non_blank (Str.split newline content) = header :: rows ->
        plain_headers (parseLine header) = true ->
        (forall e, snd (parse_file read) = Throw e -> e = TypeError) /\
        (well_nested (parseLine header) = true ->
         exists records, snd (parse_file read) = Ok records)) /\
     (forall header,
        List.filter non_blank (Str.split newline content) = [header] ->
        parse_file read = ([LogParsed 0], Ok []))).
Proof.
  split; [by intros e ->|].
  intros content ->. unfold parse_file, parse. rewrite <- filter_nil_Forall.
  destruct (List.filter non_blank (Str.split newline content)) as [|header rows].
  - split; [done|]. split; done.
  - cbn [parse_lines].
    destruct (parse_rows (parseLine header) 1 rows []) as [out [recs|e]] eqn:E.
    + split; [done|]. split.
      * intros h r [= <- <-] _. split; [done | eauto].
      * intros h [= _ ->]. simpl in E. by injection E as <- <-.
    + pose proof (parse_rows_throws _ _ _ _ _ _ E) as ->.
      split; [done|]. split.
      * intros h r [= <- <-] _. split; [by intros e [= <-]|].
        intros Hw.
        destruct (parse_rows_well_nested (parseLine header) rows 1%nat [] Hw)
          as (o & r & E'). congruence.
      * intros h [= _ ->]. done.
Qed.

Lemma parse_failures_witness :
  parse_file (Throw (Raised "ENOENT")) = ([ErrorParsingFile], Throw (Raised "ENOENT")) /\
  snd (parse_file (Ok (String newline (" " +:+ String newline EmptyString))))
  = Throw EmptyFile /\
  (exists records, snd (parse_file (Ok ("a.b,c" +:+ String newline "1,2"))) = Ok records) /\
  parse_file (Ok "a,b") = ([LogParsed 0], Ok []).
Proof.
  split; [exact (proj1 (parse_failures (Throw (Raised "ENOENT"))) _ eq_refl)|].
  split.
  { destruct (proj2 (parse_failures
                       (Ok (String newline (" " +:+ String newline EmptyString))))
                    _ eq_refl) as (H & _).
    apply H. by repeat constructor. }
  split.
  { destruct (proj2 (parse_failures (Ok ("a.b,c" +:+ String newline "1,2"))) _ eq_refl)
      as (_ & H & _).
    destruct (H "a.b,c" ["1,2"] eq_refl eq_refl) as [_ Hw]. exact (Hw eq_refl). }
  destruct (proj2 (parse_failures (Ok "a,b")) _ eq_refl) as (_ & _ & H).
  exact (H "a,b" eq_refl).
Defined.

Lemma parse_rows_account hs rows : forall i recs out records,
  Forall (fun l => non_blank l = true) rows ->
  parse_rows hs i rows recs = (out, Ok records) ->
  records = recs ++ rows_records hs rows /\
  (length (List.filter is_warning out) + length (rows_records hs rows)
   = length rows)%nat.
Proof.
  induction rows as [|line rows IH]; intros i recs out records Hb.
  - simpl. intros [= <- <-]. by rewrite app_nil_r.
  - inversion_clear Hb as [|? ? Hl Hr].
    change (rows_records hs (line :: rows))
      with (row_record hs line ++ rows_records hs rows).
    unfold row_record. rewrite Hl. cbn [parse_rows andb].
    destruct (length (parseLine line) =? length hs)%nat; cbn [negb].
    + destruct (buildRecord hs (parseLine line)) as [record|]; [|done].
      intros H. destruct (IH _ _ _ _ Hr H) as [-> Hc].
      rewrite <- app_assoc. simpl. split; [done | lia].
    + destruct (parse_rows hs (S i) rows recs) as [o r] eqn:E.
      intros [= <- ->]. destruct (IH _ _ _ _ Hr E) as [-> Hc].
      simpl. split; [done | lia].
Qed.

Lemma Forall_filter_true (f : string -> bool) l :
  Forall (fun x => f x = true) (List.filter f l).
Proof.
  induction l as [|x l IH]; simpl; [constructor|].
  destruct (f x) eqn:E; [by constructor | done].
Qed.

(** X11.  When the loader returns, every data line is accounted for: the
    records are those of the lines with as many fields as the header, in
    line order, and every other line has left one warning. *)
Theorem parse_accounts_for_every_row content out records :
  parse content = (out, Ok records) ->
  exists header rows,
    List.filter non_blank (Str.split newline content) = header :: rows /\
    records = rows_records (parseLine header) rows /\
    (length (List.filter is_warning out) + length records = length rows)%nat.
Proof.
  unfold parse.
  pose proof (Forall_filter_true non_blank (Str.split newline content)) as Hb.
  destruct (List.filter non_blank (Str.split newline content)) as [|header rows];
    [done|].
  inversion_clear Hb as [|? ? _ Hr]. cbn [parse_lines].
  destruct (parse_rows (parseLine header) 1 rows []) as [o [recs|e]] eqn:E; [|done].
  intros [= <- <-]. exists header, rows. split; [done|].
  destruct (parse_rows_account _ _ _ _ _ _ Hr E) as [-> Hc]. split; [done|].
  rewrite List.filter_app, length_app. simpl. lia.
Qed.

Lemma parse_accounts_for_every_row_witness :
  exists header rows,
    List.filter non_blank
      (Str.split newline ("a,b" +:+ String newline ("1,2" +:+ String newline "3")))
    = header :: rows /\
    [VObj false [("a", VNum (Num.Finite 1)); ("b", VNum (Num.Finite 2))]]
    = rows_records (parseLine header) rows /\
    (length (List.filter is_warning [WarnSkipping 3; LogParsed 1])
     + length [VObj false [("a", VNum (Num.Finite 1)); ("b", VNum (Num.Finite 2))]]
     = length rows)%nat.
Proof.
  apply (parse_accounts_for_every_row
           ("a,b" +:+ String newline ("1,2" +:+ String newline "3"))).
  reflexivity.
Defined.

(** ** The records the pipeline stores, on every schedule *)

Lemma concat_push_last (a : list (list value)) : forall b r,
  S b = length a ->
  concat (<[b := nth b a [] ++ [r]]> a) = concat a ++ [r].
Proof.
  induction a as [|x a IH]; intros b r Hb; [done|].
  destruct b as [|b]; simpl in *.
  - destruct a; [|done]. simpl. by rewrite !app_nil_r.
  - rewrite IH by lia. by rewrite app_assoc.
Qed.

Lemma row_record_cases hs line :
  (row_record hs line = [] /\
   (non_blank line = false \/
    (length (parseLine line) =? length hs)%nat = false \/
    exists e, buildRecord hs (parseLine line) = Throw e)) \/
  exists r, row_record hs line = [r] /\ valid_row hs line r.
Proof.
  unfold row_record, valid_row.
  destruct (non_blank line); simpl; [|left; eauto].
  destruct (length (parseLine line) =? length hs)%nat eqn:E; simpl;
    [|left; eauto].
  apply Nat.eqb_eq in E.
  destruct (buildRecord hs (parseLine line)) as [r|e]; [right|left]; eauto 10.
Qed.

Lemma step_stores bs ev s hs :
  storing hs s ->
  let new := match ev with Stream.Line l => row_record hs l | _ => [] end in
  storing hs (Stream.step bs ev s) /\
  concat (Stream.arrays (Stream.step bs ev s)) = concat (Stream.arrays s) ++ new /\
  Stream.totalRecords (Stream.step bs ev s)
  = (Stream.totalRecords s + length new)%nat.
Proof.
  intros (Hh & Hn & Hb). destruct s as [h a b n t p c pr pe ca co].
  simpl in Hh, Hn, Hb. subst h. destruct n as [|n]; [done|].
  unfold storing. destruct ev as [line|i outcome| |e]; cbn zeta.
  - unfold row_record. cbn [Stream.step]. unfold Stream.on_line.
    cbn [Stream.set_lineNumber Stream.lineNumber Stream.headers Nat.eqb].
    destruct (non_blank line); cbn [negb andb].
    + destruct (length (parseLine line) =? length hs)%nat; cbn [negb].
      * destruct (buildRecord hs (parseLine line)) as [record|].
        -- stream_eval. destruct (bs <=? _)%Z; simpl;
             rewrite length_insert, (concat_push_last a b record Hb);
             repeat split; try done; lia.
        -- stream_eval. simpl. rewrite app_nil_r. repeat split; try done; lia.
      * stream_eval. simpl. rewrite app_nil_r. repeat split; try done; lia.
    + stream_eval. simpl. rewrite app_nil_r. repeat split; try done; lia.
  - stream_eval. rewrite app_nil_r, Nat.add_0_r.
    destruct (pe !! i) as [[]|]; [| |done]; destruct outcome; simpl.
    + destruct c; simpl; [by destruct pr|].
      destruct (0 <? _)%nat; simpl; by destruct pr.
    + rewrite length_app, concat_app. simpl. rewrite app_nil_r.
      repeat split; try done. lia.
    + by destruct pr.
    + by destruct pr.
  - stream_eval. rewrite app_nil_r, Nat.add_0_r.
    destruct c; simpl; [done|].
    destruct (0 <? _)%nat; simpl; by destruct pr.
  - stream_eval. rewrite app_nil_r, Nat.add_0_r. by destruct pr.
Qed.

Lemma run_from_stores bs hs evs : forall s,
  storing hs s ->
  concat (Stream.arrays (Stream.run_from bs evs s))
  = concat (Stream.arrays s) ++ rows_records hs (lines_of evs) /\
  Stream.totalRecords (Stream.run_from bs evs s)
  = (Stream.totalRecords s + length (rows_records hs (lines_of evs)))%nat.
Proof.
  induction evs as [|ev evs IH]; intros s Hs.
  - simpl. by rewrite app_nil_r, Nat.add_0_r.
  - destruct (step_stores bs ev s hs Hs) as (Hs' & Ha & Ht).
    destruct (IH _ Hs') as [Ha' Ht'].
    change (Stream.run_from bs (ev :: evs) s)
      with (Stream.run_from bs evs (Stream.step bs ev s)).
    rewrite Ha', Ht', Ha, Ht.
    assert (E : rows_records hs (lines_of (ev :: evs))
                = match ev with Stream.Line l => row_record hs l | _ => [] end
                  ++ rows_records hs (lines_of evs)).
    { unfold rows_records, lines_of. cbn [flat_map]. rewrite flat_map_app.
      destruct ev; simpl; by rewrite ?app_nil_r. }
    rewrite E, length_app, <- app_assoc. split; [done | lia].
Qed.

Lemma rows_records_filter hs lines :
  rows_records hs (List.filter non_blank lines) = rows_records hs lines.
Proof.
  unfold rows_records. induction lines as [|l lines IH]; [done|]. simpl.
  destruct (non_blank l) eqn:E; simpl; rewrite IH; [done|].
  unfold row_record. by rewrite E.
Qed.

(** X12.  Whatever the schedule, once the first line is read as the header the
    pipeline materializes the lines as the whole-file loader does: when
    the loader returns for the same lines, the records the pipeline has
    stored are the loader's records, in the same order, and
    [totalRecords] is their number. *)
Theorem stream_stores_the_loader_records bs header evs out records :
  non_blank header = true ->
  parse_lines (List.filter non_blank (header :: lines_of evs)) = (out, Ok records) ->
  let s := Stream.run bs (Stream.Line header :: evs) in
  concat (Stream.arrays s) = records /\
  Stream.totalRecords s = length records.
Proof.
  intros Hh Hp s. simpl in Hp. rewrite Hh in Hp. cbn [parse_lines] in Hp.
  destruct (parse_rows (parseLine header) 1 (List.filter non_blank (lines_of evs)) [])
    as [o [recs|e]] eqn:E; [|done].
  injection Hp as _ <-.
  destruct (parse_rows_account _ _ _ _ _ _
              (Forall_filter_true non_blank (lines_of evs)) E) as [-> _].
  rewrite rows_records_filter. simpl app.
  subst s. unfold Stream.run. cbn [Stream.run_from fold_left Stream.step].
  rewrite (on_line_header bs header Hh).
  destruct (run_from_stores bs (parseLine header) evs
              (flowing (parseLine header) 0 0 [[]] 0 [] [])) as [Ha Ht].
  { by repeat split. }
  unfold Stream.run_from in Ha, Ht. by rewrite Ha, Ht.
Qed.

Lemma stream_stores_the_loader_records_witness :
  concat (Stream.arrays
            (Stream.run 1 [Stream.Line "h"; Stream.Line "1"; Stream.Line "";
                           Stream.Line "2,3"; Stream.Line "4"]))
  = [row 1; row 4].
Proof.
  apply (stream_stores_the_loader_records 1 "h"
           [Stream.Line "1"; Stream.Line ""; Stream.Line "2,3"; Stream.Line "4"]
           [WarnSkipping 3; LogParsed 2] [row 1; row 4]); reflexivity.
Defined.

(** ** When the promise settles *)

Lemma In_delete {A} (x : A) (l : list A) : forall i, In x (delete i l) -> In x l.
Proof.
  induction l as [|a l IH]; intros i; [by destruct i|].
  destruct i; simpl; [auto|]. intros [->|H]; [by left | right; eauto].
Qed.

Lemma In_lookup {A} (l : list A) i x : l !! i = Some x -> In x l.
Proof.
  revert i. induction l as [|a l IH]; intros i; [done|].
  destruct i; simpl; [intros [= ->]; by left | right; eauto].
Qed.

Ltac resolved Hp :=
  let m := fresh "m" in
  let Hm := fresh "Hm" in
  intros m Hm; try discriminate;
  first [ destruct (Hp m Hm) as [? ?]; split; [done | simpl; lia]
        | injection Hm as <-; split; [done | simpl; lia] ].

Lemma resolution_inv_step bs ev s :
  resolution_inv s -> resolution_inv (Stream.step bs ev s).
Proof.
  intros [Hc Hp]. destruct s as [h a b n t p c pr pe ca co].
  unfold resolution_inv in *. simpl in Hc, Hp.
  destruct ev as [line|i outcome| |e].
  - cbn [Stream.step]. unfold Stream.on_line.
    cbn [Stream.set_lineNumber Stream.lineNumber Stream.headers].
    destruct (negb (non_blank line)); [done|].
    destruct (S n =? 1)%nat; [done|].
    destruct h as [hs|]; [|done].
    destruct (negb _); [done|].
    destruct (buildRecord hs (parseLine line)) as [record|]; [|done].
    stream_eval. destruct (bs <=? _)%Z; simpl; (split; [|resolved Hp]).
    + rewrite in_app_iff. intros [H|[H|[]]]; [auto | done].
    + done.
  - cbn [Stream.step Stream.pending].
    destruct (pe !! i) as [k|] eqn:Hi; [|done].
    assert (Hd : In Stream.AwaitInClose (delete i pe) -> c = true)
      by (intros H; apply Hc; by eapply In_delete).
    destruct k, outcome as [e|]; stream_eval.
    + destruct c; simpl.
      * destruct pr as [[m'|e']|]; simpl; (split; [done|resolved Hp]).
      * destruct (0 <? _)%nat; simpl; destruct pr as [[m'|e']|]; simpl;
          (split; [done|resolved Hp]).
    + simpl. split; [done|]. resolved Hp.
    + assert (c = true) as -> by (apply Hc; by eapply In_lookup).
      destruct pr as [[m'|e']|]; simpl; (split; [done|resolved Hp]).
    + assert (c = true) as -> by (apply Hc; by eapply In_lookup).
      destruct pr as [[m'|e']|]; simpl; (split; [done|resolved Hp]).
  - stream_eval. destruct c; simpl; [done|].
    destruct (0 <? _)%nat; simpl; destruct pr as [[m'|e']|]; simpl;
      (split; [done|resolved Hp]).
  - stream_eval. destruct pr as [[m'|e']|]; simpl; (split; [done|resolved Hp]).
Qed.

Lemma resolution_inv_run bs evs : resolution_inv (Stream.run bs evs).
Proof.
  unfold Stream.run.
  assert (H : resolution_inv Stream.init) by (split; [done | by intros n]).
  revert H. generalize Stream.init.
  induction evs as [|ev evs IH]; intros s H; [done|].
  simpl. by apply IH, resolution_inv_step.
Qed.

Lemma promise_step bs ev s r :
  Stream.promise s = Some r -> Stream.promise (Stream.step bs ev s) = Some r.
Proof.
  intros Hp. destruct s as [h a b n t p c pr pe ca co]. simpl in Hp. subst pr.
  destruct ev as [line|i outcome| |e].
  - cbn [Stream.step]. unfold Stream.on_line.
    cbn [Stream.set_lineNumber Stream.lineNumber Stream.headers].
    destruct (negb (non_blank line)); [done|].
    destruct (S n =? 1)%nat; [done|].
    destruct h as [hs|]; [|done].
    destruct (negb _); [done|].
    destruct (buildRecord hs (parseLine line)) as [record|]; [|done].
    stream_eval. by destruct (bs <=? _)%Z.
  - cbn [Stream.step Stream.pending].
    destruct (pe !! i) as [[]|]; [| |done]; destruct outcome; stream_eval;
      try done.
    destruct c; simpl; [done|]. by destruct (0 <? _)%nat.
  - stream_eval. destruct c; simpl; [done|]. by destruct (0 <? _)%nat.
  - stream_eval. done.
Qed.

(** X13.  On every schedule: a total is reported only once the interface is
    closed, it counts no more records than were materialized, and a
    promise that has settled keeps its outcome whatever happens next. *)
Theorem promise_settles_once_and_after_close bs evs :
  (forall n, Stream.promise (Stream.run bs evs) = Some (Ok n) ->
     Stream.closed (Stream.run bs evs) = true /\
     (n <= Stream.totalRecords (Stream.run bs evs))%nat) /\
  (forall r more, Stream.promise (Stream.run bs evs) = Some r ->
     Stream.promise (Stream.run bs (evs ++ more)) = Some r).
Proof.
  split; [apply (resolution_inv_run bs evs)|].
  intros r more Hr. unfold Stream.run, Stream.run_from in *.
  rewrite fold_left_app. revert Hr.
  generalize (fold_left (fun s ev => Stream.step bs ev s) evs Stream.init).
  induction more as [|ev more IH]; intros s Hs; [done|].
  simpl. by apply IH, promise_step.
Qed.

Lemma promise_settles_once_and_after_close_witness :
  Stream.closed (Stream.run 2 [Stream.Line "h"; Stream.Line "1"; Stream.End;
                               Stream.Settled 0 None]) = true /\
  Stream.promise (Stream.run 2 ([Stream.Line "h"; Stream.Line "1"; Stream.End;
                                 Stream.Settled 0 None]
                                ++ [Stream.SourceError "late"; Stream.Line "2"]))
  = Some (Ok 1%nat).
Proof.
  destruct (promise_settles_once_and_after_close 2
              [Stream.Line "h"; Stream.Line "1"; Stream.End; Stream.Settled 0 None])
    as [H1 H2].
  split.
  - exact (proj1 (H1 1%nat eq_refl)).
  - exact (H2 (Ok 1%nat) [Stream.SourceError "late"; Stream.Line "2"] eq_refl).
Defined.

(** ** A run without overlap over any file *)

(** A line that gives no record. *)
Lemma feed_row_drop bs outcome hs line n total arrs b calls console :
  row_record hs line = [] ->
  exists console',
    Stream.settle_calls bs outcome
      (Stream.step bs (Stream.Line line) (flowing hs n total arrs b calls console))
    = flowing hs (S n) total arrs b calls console'.
Proof.
  intros Hr. destruct (row_record_cases hs line) as [[_ Hc]|(r & E & _)];
    [|congruence].
  cbn [Stream.step]. unfold Stream.on_line, flowing.
  cbn [Stream.set_lineNumber Stream.lineNumber Stream.headers Nat.eqb].
  destruct Hc as [Hb|[Hl|[e He]]].
  - rewrite Hb. cbn [negb]. eauto.
  - destruct (negb (non_blank line)); [eauto|]. rewrite Hl. cbn [negb].
    stream_eval. eauto.
  - destruct (negb (non_blank line)); [eauto|].
    destruct (negb _); [stream_eval; eauto|].
    rewrite He. stream_eval. eauto.
Qed.

Lemma sequential_from_any bs hs lines :
  forall n total arrs b calls console,
    (b < length arrs)%nat ->
    let s := Stream.sequential_from bs (fun _ => None) lines
               (flowing hs n total arrs b calls console) in
    map snd (Stream.calls s)
    = map snd calls ++ batches bs (nth b arrs []) (rows_records hs lines) /\
    Stream.promise s = Some (Ok (total + length (rows_records hs lines))%nat) /\
    Stream.pending s = [].
Proof.
  induction lines as [|line lines IH];
    intros n total arrs b calls console Hb.
  - cbn [Stream.sequential_from rows_records flat_map batches length].
    rewrite Nat.add_0_r.
    destruct (nth b arrs []) as [|x cur] eqn:E.
    + destruct (feed_end_empty bs (fun _ => None) hs n total arrs b calls console E)
        as (-> & -> & ->).
      by rewrite app_nil_r.
    + rewrite feed_end_flush; [|by rewrite E|done].
      cbn [Stream.calls Stream.promise Stream.pending].
      by rewrite map_app, E.
  - rewrite sequential_from_flowing.
    change (rows_records hs (line :: lines))
      with (row_record hs line ++ rows_records hs lines).
    destruct (row_record_cases hs line) as [[E _]|(r & E & Hv)]; rewrite E.
    + destruct (feed_row_drop bs (fun _ => None) hs line n total arrs b calls
                  console E) as [console' ->].
      by apply IH.
    + cbn [app batches length].
      destruct (bs <=? Z.of_nat (length (nth b arrs [] ++ [r])))%Z eqn:Full.
      * apply Z.leb_le in Full.
        rewrite (feed_row_full bs _ hs line r) by done.
        assert (E' : nth (length arrs)
                       (<[b:=nth b arrs [] ++ [r]]> arrs ++ [[]]) [] = []).
        { rewrite app_nth2; rewrite length_insert; [|lia].
          by rewrite Nat.sub_diag. }
        destruct (IH (S n) (S total)
                    (<[b:=nth b arrs [] ++ [r]]> arrs ++ [[]]) (length arrs)
                    (calls ++ [(b, nth b arrs [] ++ [r])])
                    (console ++ [LogProcessedBatch (S total)]))
          as (Hc & Hp & Hq).
        { rewrite length_app, length_insert. simpl. lia. }
        rewrite E' in Hc. rewrite Hc, Hp, Hq, map_app, <- app_assoc.
        repeat split. do 2 f_equal. lia.
      * apply Z.leb_gt in Full.
        rewrite (feed_row_keep bs _ hs line r) by done.
        assert (E' : nth b (<[b:=nth b arrs [] ++ [r]]> arrs) []
                     = nth b arrs [] ++ [r]) by (by apply nth_insert_same).
        destruct (IH (S n) (S total) (<[b:=nth b arrs [] ++ [r]]> arrs) b
                    calls console) as (Hc & Hp & Hq).
        { by rewrite length_insert. }
        rewrite E' in Hc. rewrite Hc, Hp, Hq.
        repeat split. do 2 f_equal. lia.
Qed.

Lemma list_sum_concat (l : list (list value)) :
  list_sum (map length l) = length (concat l).
Proof.
  induction l as [|x l IH]; [done|]. simpl. by rewrite length_app, IH.
Qed.

Lemma batches_nonempty bs recs : forall cur,
  Forall (fun b => b <> []) (batches bs cur recs).
Proof.
  induction recs as [|r recs IH]; intros cur; simpl.
  - destruct cur; repeat constructor. done.
  - destruct (bs <=? _)%Z; [constructor; [by destruct cur | apply IH] | apply IH].
Qed.

Lemma batches_of_one bs recs :
  (bs <= 1)%Z -> batches bs [] recs = map (fun r => [r]) recs.
Proof.
  intros Hbs. induction recs as [|r recs IH]; [done|].
  cbn [batches app length map].
  destruct (bs <=? Z.of_nat 1)%Z eqn:E; [by rewrite IH|].
  apply Z.leb_gt in E. lia.
Qed.

(** X14.  (csvParser.js, parseStream, lines 82-178.)  A run without overlap
    over any file whose first line is not blank, with a consumer that
    fulfils every call.  The consumer is handed the records of the lines
    in line order, cut whenever the batch reaches [batchSize], with what
    is left as a last batch; no batch is empty, and the sizes add up to
    the total the run resolves with.  With a positive [batchSize] no
    batch is larger than it; with a [batchSize] of 1, 0 or less every
    record is handed over on its own. *)
Theorem sequential_run_hands_over_every_record bs header lines :
  non_blank header = true ->
  let s := Stream.sequential bs (fun _ => None) (header :: lines) in
  let recs := rows_records (parseLine header) lines in
  map snd (Stream.calls s) = batches bs [] recs /\
  concat (map snd (Stream.calls s)) = recs /\
  Forall (fun n => (1 <= n)%nat) (Stream.call_sizes s) /\
  list_sum (Stream.call_sizes s) = length recs /\
  Stream.promise s = Some (Ok (length recs)) /\
  ((1 <= bs)%Z ->
   Forall (fun n => (Z.of_nat n <= bs)%Z) (Stream.call_sizes s)) /\
  ((bs <= 1)%Z -> map snd (Stream.calls s) = map (fun r => [r]) recs).
Proof.
  intros Hh s recs. subst s recs.
  rewrite (sequential_header bs _ header lines Hh).
  destruct (sequential_from_any bs (parseLine header) lines 0 0 [[]] 0 [] [])
    as (Hc & Hp & _); [simpl; lia|].
  simpl in Hc.
  assert (Hsizes : Stream.call_sizes
            (Stream.sequential_from bs (fun _ => None) lines
               (flowing (parseLine header) 0 0 [[]] 0 [] []))
          = map length (batches bs [] (rows_records (parseLine header) lines))).
  { unfold Stream.call_sizes. by rewrite <- (map_map snd length), Hc. }
  bp_split.
  - done.
  - by rewrite Hc, concat_batches.
  - rewrite Hsizes. apply Forall_map.
    eapply Forall_impl; [apply (batches_nonempty bs _ [])|].
    intros b Hne. destruct b; [done | simpl; lia].
  - by rewrite Hsizes, list_sum_concat, concat_batches.
  - done.
  - intros Hbs. rewrite Hsizes. apply Forall_map.
    eapply Forall_impl; [apply (batches_bounded bs _ []); simpl; lia|].
    by intros b [_ Hle].
  - intros Hbs. by rewrite Hc, batches_of_one.
Qed.

Lemma sequential_run_hands_over_every_record_witness :
  map snd (Stream.calls
             (Stream.sequential 2 (fun _ => None) ["h"; "1"; ""; "2,3"; "4"; "5"]))
  = batches 2 [] (rows_records (parseLine "h") ["1"; ""; "2,3"; "4"; "5"]).
Proof.
  apply (sequential_run_hands_over_every_record 2 "h" ["1"; ""; "2,3"; "4"; "5"]).
  reflexivity.
Defined.

(** * The user service *)

Lemma get_app_fresh {A} (ps qs : list (string * A)) k :
  get ps k = None -> get (ps ++ qs) k = get qs k.
Proof.
  induction ps as [|[k' v'] r IH]; simpl; [done|].
  destruct (String.eqb k' k); [done | exact IH].
Qed.

Lemma set_fresh {A} (ps : list (string * A)) k v :
  get ps k = None -> set ps k v = ps ++ [(k, v)].
Proof.
  induction ps as [|[k' v'] r IH]; simpl; [done|].
  destruct (String.eqb k' k); [done|].
  intros H. by rewrite IH.
Qed.

Lemma get_absent {A} (ps : list (string * A)) k :
  ~ In k (map fst ps) -> get ps k = None.
Proof.
  induction ps as [|[k' v'] r IH]; simpl; [done|].
  intros H. destruct (String.eqb k' k) eqn:E.
  - apply String.eqb_eq in E. tauto.
  - apply IH. tauto.
Qed.

Lemma additionalInfo_fold (l acc : props) :
  List.NoDup (map fst l) ->
  (forall k, In k (map fst l) -> get acc k = None) ->
  fold_left (fun info kv => if User.reserved (fst kv) then info
                            else User.own_assign info (fst kv) (snd kv)) l acc
  = acc ++ List.filter (fun kv => negb (User.left_out (fst kv))) l.
Proof.
  revert acc. induction l as [|[k v] r IH]; intros acc Hnd Hfresh; simpl.
  - by rewrite app_nil_r.
  - inversion Hnd as [|? ? Hk Hr]; subst.
    unfold User.left_out, User.own_assign.
    destruct (User.reserved k) eqn:Er; simpl.
    { apply IH; [done|]. intros k' Hk'. apply Hfresh. simpl. tauto. }
    destruct (String.eqb k "__proto__") eqn:Ep; simpl.
    + apply IH; [done|]. intros k' Hk'. apply Hfresh. simpl. tauto.
    + rewrite set_fresh by (apply Hfresh; simpl; tauto).
      rewrite IH; [by rewrite <- app_assoc | done |].
      intros k' Hk'. rewrite get_app_fresh by (apply Hfresh; simpl; tauto).
      simpl. destruct (String.eqb k k') eqn:E; [|done].
      apply String.eqb_eq in E. subst. tauto.
Qed.

(** X15.  (userService.js, insertUserBatch, lines 28-45.)  For a record
    object, the additional information is the record's own properties
    other than name, age and address (and other than [__proto__], should
    the record have a property of that name), in the record's order and
    with the record's values; whenever the parameters of the INSERT are
    made, the fourth one is null exactly when the record has no such
    property, and is the JSON text of that object otherwise. *)
Theorem additionalInfo_is_the_rest_of_the_record nts ats a ps :
  List.NoDup (map fst ps) ->
  let rest := List.filter (fun kv => negb (User.left_out (fst kv))) ps in
  User.additionalInfo (VObj a ps) = rest /\
  (forall k, get rest k = if User.left_out k then None else get ps k) /\
  (forall params,
     User.insert_params nts ats (VObj a ps) = Ok params ->
     exists name age address,
       params =
         [User.PStr name; User.PVal age; address;
          if forallb (fun kv => User.left_out (fst kv)) ps then User.PNull
          else User.PJson (VObj false rest)]).
Proof.
  intros Hnd rest.
  assert (Hinfo : User.additionalInfo (VObj a ps) = rest).
  { unfold User.additionalInfo. simpl. by rewrite additionalInfo_fold. }
  split; [exact Hinfo|]. split.
  - intros k. subst rest. clear. induction ps as [|[k' v] r IH]; simpl.
    + by destruct (User.left_out k).
    + destruct (User.left_out k') eqn:Er; simpl.
      * destruct (String.eqb k' k) eqn:E.
        -- apply String.eqb_eq in E. subst. by rewrite IH, Er.
        -- exact IH.
      * destruct (String.eqb k' k) eqn:E; [|exact IH].
        apply String.eqb_eq in E. subst. by rewrite Er.
  - intros params. unfold User.insert_params. rewrite Hinfo.
    destruct (User.fullName nts ats (VObj a ps)) as [name|e]; simpl; [|done].
    intros [= <-]. eexists _, _, _. do 4 f_equal.
    subst rest. clear. induction ps as [|[k v] r IH]; simpl; [done|].
    destruct (User.left_out k); simpl; [exact IH | done].
Qed.

Lemma additionalInfo_is_the_rest_of_the_record_witness :
  User.additionalInfo
    (VObj false [("name", VObj false [("firstName", VStr "Ann")]);
                 ("gender", VStr "f"); ("age", VNum (Num.Finite 30));
                 ("city", VStr "Pune")])
  = [("gender", VStr "f"); ("city", VStr "Pune")].
Proof.
  set (ps := [("name", VObj false [("firstName", VStr "Ann")]);
              ("gender", VStr "f"); ("age", VNum (Num.Finite 30));
              ("city", VStr "Pune")]).
  assert (H : List.NoDup (map fst ps)).
  { repeat constructor; simpl; intros H;
      repeat (destruct H as [H | H]; [discriminate H|]); exact H. }
  exact (proj1 (additionalInfo_is_the_rest_of_the_record
                  (fun _ => EmptyString) (fun _ => Ok EmptyString) false ps H)).
Defined.

Lemma insert_all_calls nts ats fail records : forall i calls res,
  User.insert_all nts ats fail i records = (calls, res) ->
  Forall (fun c => exists ps, c = User.QInsert ps) calls /\
  (res = None ->
   exists pss,
     Forall2 (fun r ps => User.insert_params nts ats r = Ok ps) records pss /\
     calls = map User.QInsert pss) /\
  ((forall j, fail j = None) ->
   Forall (fun r => exists ps, User.insert_params nts ats r = Ok ps) records ->
   res = None).
Proof.
  induction records as [|r rest IH]; intros i calls res; simpl.
  - intros [= <- <-]. split; [constructor|]. split; [|done].
    intros _. exists []. split; [constructor | done].
  - destruct (User.insert_params nts ats r) as [ps|e] eqn:Ep.
    + destruct (fail i) as [e|] eqn:Ef.
      * intros [= <- <-]. split; [repeat constructor; by eexists|].
        split; [done|]. intros Hf. by rewrite Hf in Ef.
      * destruct (User.insert_all nts ats fail (S i) rest) as [calls' res'] eqn:Er.
        intros [= <- <-]. destruct (IH _ _ _ Er) as (Hc & Hok & Hnone).
        split; [constructor; [by eexists | exact Hc]|]. split.
        -- intros Hn. destruct (Hok Hn) as (pss & Hpss & ->).
           exists (ps :: pss). split; [by constructor | done].
        -- intros Hf Hr. apply Hnone; [done|]. by inversion Hr.
    + intros [= <- <-]. split; [constructor|]. split; [done|].
      intros _ Hr. inversion Hr as [|? ? [ps Hps] _]; subst. congruence.
Qed.

(** X16.  (userService.js, insertUserBatch, lines 11-60.)  Once the client
    is obtained, whatever queries fail, the calls on it start with BEGIN
    and end with the one release of the client; the call returns only
    after every record was inserted in order and COMMIT was issued, and
    then returns the number of records; whenever it throws, the last
    query issued is the one ROLLBACK; and it returns when no query fails
    and the parameters of every record can be made (the record is not
    null and the parts of its name have a string). *)
Theorem insertUserBatch_transaction nts ats fail records calls res :
  User.insertUserBatch nts ats None fail records = (calls, res) ->
  (exists body, calls = User.QBegin :: body ++ [User.Release] /\
                ~ In User.Release body /\ ~ In User.QBegin body) /\
  (forall n, res = Ok n ->
     n = length records /\
     exists pss,
       Forall2 (fun r ps => User.insert_params nts ats r = Ok ps) records pss /\
       calls = User.QBegin :: map User.QInsert pss ++ [User.QCommit; User.Release]) /\
  (forall e, res = Throw e ->
     exists body, calls = body ++ [User.QRollback; User.Release] /\
                  ~ In User.QRollback body) /\
  ((forall j, fail j = None) ->
   Forall (fun r => exists ps, User.insert_params nts ats r = Ok ps) records ->
   res = Ok (length records)).
Proof.
  unfold User.insertUserBatch, User.transaction.
  assert (Hno : forall l c, (forall ps, c <> User.QInsert ps) ->
            Forall (fun c => exists ps, c = User.QInsert ps) l -> ~ In c l).
  { intros l c Hc Hl Hin. apply (proj1 (List.Forall_forall _ _) Hl) in Hin.
    destruct Hin as [ps ->]. by apply (Hc ps). }
  destruct (fail 0%nat) as [e0|] eqn:E0.
  - intros [= <- <-]. bp_split.
    + exists [User.QRollback]. simpl. split; [done|].
      split; intros [H|[]]; discriminate H.
    + intros n H. by destruct (fail 1%nat).
    + intros e _. exists [User.QBegin]. split; [done|].
      intros [H|[]]; discriminate H.
    + intros Hf. by rewrite Hf in E0.
  - destruct (User.insert_all nts ats fail 1 records) as [ins r] eqn:Ei.
    destruct (insert_all_calls _ _ _ _ _ _ _ Ei) as (Hc & Hok & Hnone).
    destruct r as [e|].
    + intros [= <- <-]. bp_split.
      * exists (ins ++ [User.QRollback]). split; [by rewrite <- app_assoc|].
        split; intros H; apply in_app_or in H; destruct H as [H|[H|[]]];
          try discriminate H; revert H; by apply Hno.
      * intros n H. simpl in H. by destruct (fail (S (length ins))).
      * intros e' _. exists (User.QBegin :: ins). split; [done|].
        intros [H|H]; [discriminate H|]. revert H. by apply Hno.
      * intros Hf Hr. by specialize (Hnone Hf Hr).
    + destruct (Hok eq_refl) as (pss & Hpss & ->).
      destruct (fail (S (length (map User.QInsert pss)))) as [e|] eqn:Ec.
      * intros [= <- <-]. bp_split.
        -- exists (map User.QInsert pss ++ [User.QCommit; User.QRollback]).
           split; [simpl; by rewrite <- !app_assoc|].
           split; intros H; apply in_app_or in H;
             destruct H as [H|[H|[H|[]]]]; try discriminate H;
             revert H; by apply Hno.
        -- intros n H. simpl in H.
           by destruct (fail (S (length (map User.QInsert pss ++ [User.QCommit])))).
        -- intros e' _. exists (User.QBegin :: map User.QInsert pss ++ [User.QCommit]).
           split; [simpl; by rewrite <- !app_assoc|].
           intros [H|H]; [discriminate H|]. apply in_app_or in H.
           destruct H as [H|[H|[]]]; try discriminate H. revert H. by apply Hno.
        -- intros Hf. by rewrite Hf in Ec.
      * intros [= <- <-]. bp_split.
        -- exists (map User.QInsert pss ++ [User.QCommit]).
           split; [simpl; by rewrite <- !app_assoc|].
           split; intros H; apply in_app_or in H;
             destruct H as [H|[H|[]]]; try discriminate H;
             revert H; by apply Hno.
        -- intros n [= <-]. split; [done|]. exists pss. split; [done|].
           simpl. by rewrite <- !app_assoc.
        -- intros e H. discriminate H.
        -- done.
Qed.

Lemma insertUserBatch_transaction_witness :
  exists body,
    fst (User.insertUserBatch (fun _ => EmptyString) (fun _ => Ok EmptyString) None
           (fun i => if (i =? 2)%nat then Some "duplicate key" else None)
           [VObj false [("age", VNum (Num.Finite 30))];
            VObj false [("age", VNum (Num.Finite 41))]])
    = body ++ [User.QRollback; User.Release] /\ ~ In User.QRollback body.
Proof.
  set (fail := fun i : nat => if (i =? 2)%nat then Some "duplicate key" else None).
  set (recs := [VObj false [("age", VNum (Num.Finite 30))];
                VObj false [("age", VNum (Num.Finite 41))]]).
  destruct (User.insertUserBatch (fun _ => EmptyString) (fun _ => Ok EmptyString)
              None fail recs) as [calls res] eqn:E.
  assert (Hres : res = Throw (Raised "duplicate key")).
  { vm_compute in E. by injection E as _ <-. }
  destruct (insertUserBatch_transaction _ _ _ _ _ _ E) as (_ & _ & H & _).
  exact (H _ Hres).
Defined.

Lemma count_age_fold ages : forall b,
  let b' := fold_left User.count_age ages b in
  User.lessThan20 b' =
    (User.lessThan20 b + length (List.filter (fun a => a <? 20)%Z ages))%nat /\
  User.between20And40 b' =
    (User.between20And40 b
     + length (List.filter (fun a => (20 <=? a) && (a <? 40))%Z ages))%nat /\
  User.between40And60 b' =
    (User.between40And60 b
     + length (List.filter (fun a => (40 <=? a) && (a <? 60))%Z ages))%nat /\
  User.above60 b' =
    (User.above60 b + length (List.filter (fun a => 60 <=? a)%Z ages))%nat.
Proof.
  induction ages as [|a r IH]; intros b; simpl.
  - lia.
  - specialize (IH (User.count_age b a)). simpl in IH.
    destruct IH as (H1 & H2 & H3 & H4). rewrite H1, H2, H3, H4.
    unfold User.count_age.
    destruct (a <? 20)%Z eqn:E1, (20 <=? a)%Z eqn:E2, (a <? 40)%Z eqn:E3,
      (40 <=? a)%Z eqn:E4, (a <? 60)%Z eqn:E5, (60 <=? a)%Z eqn:E6;
      simpl; try lia.
Qed.

(** X17.  (userService.js, calculateAgeDistribution, lines 80-105.)  There is
    no report exactly when there is no row; otherwise the total is the
    number of rows, each counter is the number of ages in its range
    (below 20, 20 to 39, 40 to 59, and 60 or more, so that the age 60 is
    counted in the last group), and the four counters add up to the
    total. *)
Theorem age_counters_partition_the_rows ages :
  (User.calculateAgeDistribution ages = None <-> ages = []) /\
  forall total b, User.calculateAgeDistribution ages = Some (total, b) ->
    total = length ages /\ (0 < total)%nat /\
    User.lessThan20 b = length (List.filter (fun a => a <? 20)%Z ages) /\
    User.between20And40 b =
      length (List.filter (fun a => (20 <=? a) && (a <? 40))%Z ages) /\
    User.between40And60 b =
      length (List.filter (fun a => (40 <=? a) && (a <? 60))%Z ages) /\
    User.above60 b = length (List.filter (fun a => 60 <=? a)%Z ages) /\
    (User.lessThan20 b + User.between20And40 b
     + User.between40And60 b + User.above60 b = total)%nat.
Proof.
  split.
  - destruct ages; simpl; split; intros H; done.
  - intros total b H.
    assert (Hb : total = length ages /\ (0 < total)%nat /\
                 b = fold_left User.count_age ages
                       {| User.lessThan20 := 0; User.between20And40 := 0;
                          User.between40And60 := 0; User.above60 := 0 |}).
    { destruct ages as [|a r]; [discriminate H|].
      injection H as <- <-. simpl. split; [done|]. split; [lia | done]. }
    destruct Hb as (-> & Hpos & ->).
    pose proof (count_age_fold ages
                  {| User.lessThan20 := 0; User.between20And40 := 0;
                     User.between40And60 := 0; User.above60 := 0 |}) as Hc.
    simpl in Hc. destruct Hc as (H1 & H2 & H3 & H4).
    bp_split; try done.
    rewrite H1, H2, H3, H4. clear.
    induction ages as [|a r IH]; simpl; [done|].
    destruct (a <? 20)%Z eqn:E1, (20 <=? a)%Z eqn:E2, (a <? 40)%Z eqn:E3,
      (40 <=? a)%Z eqn:E4, (a <? 60)%Z eqn:E5, (60 <=? a)%Z eqn:E6;
      simpl; lia.
Qed.

Lemma age_counters_partition_the_rows_witness :
  exists b, User.calculateAgeDistribution [19; 20; 60; 61; 45]%Z = Some (5%nat, b) /\
            User.above60 b = 2%nat.
Proof.
  set (ages := [19; 20; 60; 61; 45]%Z).
  destruct (User.calculateAgeDistribution ages) as [[total b]|] eqn:E;
    [|discriminate E].
  destruct (proj2 (age_counters_partition_the_rows ages) total b E)
    as (Ht & _ & _ & _ & _ & H4 & _).
  exists b. split; [by rewrite Ht | exact H4].
Defined.

(** * The parser's records in the user service *)

Lemma set_keys {A} (ps : list (string * A)) k v x :
  In x (map fst (set ps k v)) -> x = k \/ In x (map fst ps).
Proof.
  induction ps as [|[k' v'] r IH]; simpl.
  - intros [H|[]]; auto.
  - destruct (String.eqb k' k) eqn:E; simpl.
    + apply String.eqb_eq in E. subst. tauto.
    + intros [H|H]; [tauto|]. apply IH in H. tauto.
Qed.

Lemma set_keys_nodup {A} (ps : list (string * A)) k v :
  List.NoDup (map fst ps) -> List.NoDup (map fst (set ps k v)).
Proof.
  induction ps as [|[k' v'] r IH]; simpl; intros Hnd.
  - repeat constructor. intros [].
  - inversion Hnd as [|? ? Hk Hr]; subst.
    destruct (String.eqb k' k) eqn:E; simpl.
    + apply String.eqb_eq in E. subst. by constructor.
    + constructor; [|by apply IH].
      intros H. apply set_keys in H. destruct H as [->|H]; [|done].
      by rewrite String.eqb_refl in E.
Qed.

Lemma mergeDeep_entries_nodup l : forall a tp r,
  List.NoDup (map fst tp) ->
  mergeDeep_entries (VObj a tp) l = Ok r ->
  exists rp, r = VObj a rp /\ List.NoDup (map fst rp).
Proof.
  induction l as [|[key sv] rest IH]; intros a tp r Hnd; simpl.
  - intros [= <-]. eauto.
  - destruct (is_plain_object sv).
    + destruct (get tp key) as [old|].
      * destruct (truthy old).
        -- destruct (mergeDeep old sv); simpl; [|done].
           apply IH. by apply set_keys_nodup.
        -- destruct (mergeDeep empty_object sv); simpl; [|done].
           apply IH. by do 2 apply set_keys_nodup.
      * destruct (mergeDeep empty_object sv); simpl; [|done].
        apply IH. by do 2 apply set_keys_nodup.
    + apply IH. by apply set_keys_nodup.
Qed.

Lemma createNestedObject_object key v :
  exists ps, createNestedObject key v = VObj false ps.
Proof.
  unfold createNestedObject.
  destruct (Str.split dot key) as [|k [|k' rest]]; simpl; eauto.
Qed.

Lemma buildRecord_from_nodup hs : forall vals tp r,
  List.NoDup (map fst tp) ->
  buildRecord_from (VObj false tp) hs vals = Ok r ->
  exists rp, r = VObj false rp /\ List.NoDup (map fst rp).
Proof.
  induction hs as [|h hs IH]; intros vals tp r Hnd; simpl.
  - intros [= <-]. eauto.
  - destruct vals as [|v vals]; [done|].
    destruct (createNestedObject_object (Str.trim h) (coerce (Str.trim v)))
      as [ps ->].
    rewrite mergeDeep_object.
    destruct (mergeDeep_entries (VObj false tp) ps) as [t'|e] eqn:Em; simpl; [|done].
    destruct (mergeDeep_entries_nodup _ _ _ _ Hnd Em) as (rp & -> & Hrp).
    by apply IH.
Qed.

(** * The parser's records in the user service *)

Lemma keys_all_set (P : string -> bool) sk k sh :
  keys_all P (Node sk) = true -> P k = true -> keys_all P sh = true ->
  keys_all P (Node (set sk k sh)) = true.
Proof.
  cbn [keys_all]. intros Hsk Hk Hsh.
  induction sk as [|[k' sh'] r IH]; simpl.
  - by rewrite Hk, Hsh.
  - simpl in Hsk. apply andb_true_iff in Hsk as [H1 H2].
    destruct (String.eqb k' k); simpl.
    + by rewrite Hk, Hsh, H2.
    + by rewrite H1, (IH H2).
Qed.

Lemma keys_all_get (P : string -> bool) sk k sh :
  keys_all P (Node sk) = true -> get sk k = Some sh -> keys_all P sh = true.
Proof.
  cbn [keys_all]. induction sk as [|[k' sh'] r IH]; simpl; [done|].
  intros [[_ H1]%andb_true_iff H2]%andb_true_iff.
  destruct (String.eqb k' k); [by intros [= <-] | by apply IH].
Qed.

Lemma keys_all_absent (P : string -> bool) sk k :
  keys_all P (Node sk) = true -> P k = false -> get sk k = None.
Proof.
  cbn [keys_all]. induction sk as [|[k' sh'] r IH]; simpl; [done|].
  intros [[H1 _]%andb_true_iff H2]%andb_true_iff Hk.
  destruct (String.eqb k' k) eqn:E; [|by apply IH].
  apply String.eqb_eq in E. subst. congruence.
Qed.

Lemma add_path_keys (P : string -> bool) rest : forall k sk,
  forallb P (map Str.trim (k :: rest)) = true ->
  keys_all P (Node sk) = true ->
  keys_all P (Node (add_path k rest sk)) = true.
Proof.
  induction rest as [|k' rest' IH]; intros k sk Hp Hsk;
    cbn [map forallb] in Hp; apply andb_true_iff in Hp as [Hk Hr];
    cbn [add_path].
  - by apply keys_all_set.
  - apply keys_all_set; [done..|]. apply IH; [exact Hr|].
    destruct (get sk (Str.trim k)) as [[|c]|] eqn:G; [done| |done].
    by eapply keys_all_get.
Qed.

Lemma skeleton_keys (P : string -> bool) headers : forall sk,
  forallb (fun h => forallb P (header_path h)) headers = true ->
  keys_all P (Node sk) = true ->
  keys_all P (Node (fold_left add_header headers sk)) = true.
Proof.
  induction headers as [|h hs IH]; intros sk Hp Hsk; [done|].
  cbn [forallb] in Hp. apply andb_true_iff in Hp as [Hh Hhs].
  cbn [fold_left]. apply IH; [done|].
  unfold add_header. unfold header_path in Hh.
  destruct (Str.split dot (Str.trim h)) as [|k rest]; [done|].
  by apply add_path_keys.
Qed.

(** A record built against plain headers has plain keys at every depth. *)
Lemma buildRecord_plain headers vals r :
  plain_headers headers = true ->
  buildRecord headers vals = Ok r ->
  record_like r = true /\ keys_all plain_key (shape_of r) = true.
Proof.
  intros Hp H. apply buildRecord_from_shape in H as [Hrl Hsh]; [|done].
  split; [done|]. rewrite Hsh. by apply skeleton_keys.
Qed.

Lemma get_shape_of P ps k x :
  keys_all P (shape_of (VObj false ps)) = true -> get ps k = Some x ->
  keys_all P (shape_of x) = true.
Proof.
  cbn [shape_of]. intros H G. eapply keys_all_get; [exact H|].
  rewrite get_shape, G. done.
Qed.

Section Conversion.

Variable number_to_string : Num.jsnum -> string.
Variable array_to_string : props -> result string.

Lemma to_string_plain v :
  is_scalar v || record_like v = true ->
  keys_all plain_key (shape_of v) = true ->
  exists s, User.to_string number_to_string array_to_string v = Ok s.
Proof.
  intros Hv Hk. destruct v as [| |n|s|[] ps]; try done; simpl; eauto.
  cbn [shape_of] in Hk.
  assert (G : get (map shape_entry ps) "toString" = None)
    by (by eapply keys_all_absent).
  rewrite get_shape in G. destruct (get ps "toString"); [done | eauto].
Qed.

Lemma name_part_plain r part :
  record_like r = true -> keys_all plain_key (shape_of r) = true ->
  exists s, User.to_string number_to_string array_to_string
              (User.or_else (User.name_part r part) (VStr EmptyString)) = Ok s.
Proof.
  intros Hr Hk. destruct (record_like_object r Hr) as [ps ->].
  unfold User.name_part. cbn [getProp].
  destruct (get ps "name") as [nm|] eqn:G; [|simpl; eauto].
  pose proof (record_like_get ps _ nm Hr G) as Hnm.
  pose proof (get_shape_of _ _ _ _ Hk G) as Knm.
  destruct nm as [| |n|s|[] c]; try done; simpl; eauto.
  destruct (get c part) as [f|] eqn:F; [|simpl; eauto].
  pose proof (record_like_get c _ f Hnm F) as Hf.
  pose proof (get_shape_of _ _ _ _ Knm F) as Kf.
  unfold User.or_else. destruct (truthy f); [|simpl; eauto].
  by apply to_string_plain.
Qed.

End Conversion.

(** X18.  (csvParser.js row loop, lines 118-132, with userService.js,
    insertUserBatch, lines 18-45.)  A record the parser builds against
    headers whose segments are plain keys is an object whose keys are
    such keys at every depth; the parts of its name have a string, so that
    the parameters of its INSERT are always made (no exception before the
    query), and its additional information is its top-level properties
    other than name, age and address, in the order of the record. *)
Theorem parser_record_reaches_the_insert nts ats hs vals r :
  plain_headers hs = true ->
  buildRecord hs vals = Ok r ->
  exists ps,
    r = VObj false ps /\
    keys_all plain_key (shape_of r) = true /\
    User.additionalInfo r =
      List.filter (fun kv => negb (User.reserved (fst kv))) ps /\
    exists name age address info,
      User.insert_params nts ats r =
        Ok [User.PStr name; User.PVal age; address; info].
Proof.
  intros Hp H. destruct (buildRecord_plain hs vals r Hp H) as [Hrl Hk].
  unfold buildRecord, empty_object in H.
  destruct (buildRecord_from_nodup hs vals [] r) as (ps & -> & Hnd);
    [constructor | exact H |].
  exists ps. split; [done|]. split; [done|]. split.
  - unfold User.additionalInfo. simpl. rewrite additionalInfo_fold by done.
    simpl. apply List.filter_ext_in. intros [k v] Hin.
    unfold User.left_out. cbn [fst].
    destruct (String.eqb k "__proto__") eqn:E; [|by rewrite orb_false_r].
    apply String.eqb_eq in E. subst k.
    cbn [shape_of keys_all] in Hk.
    apply (proj1 (List.forallb_forall _ _)) with (x := shape_entry ("__proto__", v))
      in Hk; [discriminate Hk|].
    by apply (List.in_map shape_entry) in Hin.
  - unfold User.insert_params, User.fullName.
    destruct (name_part_plain nts ats (VObj false ps) "firstName" Hrl Hk) as [f ->].
    destruct (name_part_plain nts ats (VObj false ps) "lastName" Hrl Hk) as [l ->].
    simpl. by eexists _, _, _, _.
Qed.

Lemma parser_record_reaches_the_insert_witness :
  exists r,
    buildRecord ["name.firstName"; "age"; "gender"] ["Ann"; "30"; "f"] = Ok r /\
    User.additionalInfo r = [("gender", VStr "f")].
Proof.
  destruct (buildRecord ["name.firstName"; "age"; "gender"] ["Ann"; "30"; "f"])
    as [r|e] eqn:E; [|vm_compute in E; discriminate E].
  destruct (parser_record_reaches_the_insert
              (fun _ => EmptyString) (fun _ => Ok EmptyString)
              ["name.firstName"; "age"; "gender"] ["Ann"; "30"; "f"] r eq_refl E)
    as (ps & Hr & _ & Hinfo & _).
  exists r. split; [done|]. rewrite Hinfo.
  vm_compute in E. injection E as <-. injection Hr as <-. reflexivity.
Defined.
